(** * doc_gen_script.py: discovery, chunking, summarisation and aggregation

    A shallow embedding of [src/doc_gen_script.py] and the properties its
    specification states about it.

    Conventions of the embedding.
    - A Python [str] is a list of characters ([str := list ascii]); a
      character is a code point below 256.
    - A Python [int] is a [Z].
    - The file system is a finite tree of regular files and directories that
      does not change during a run.
    - The text-generation backend is an oracle: a function from the calls made
      so far and the present request to the HTTP outcome; the list of calls is
      threaded through the code as state. *)

From Equations Require Import Equations.
From Stdlib Require Import Ascii String.
From Stdlib Require Import List ZArith Lia Bool Arith.
From Stdlib Require Import Sorted Permutation.
From Stdlib Require DecimalString DecimalPos DecimalZ.
Import ListNotations.

Local Open Scope Z_scope.

#[local] Set Warnings "-register-all".

(** ** Strings *)

Definition str := list ascii.

(** A string literal of the source. *)
Definition lit (s : string) : str := list_ascii_of_string s.

Definition str_eq_dec : forall a b : str, {a = b} + {a <> b} :=
  list_eq_dec ascii_dec.

Definition str_eqb (a b : str) : bool :=
  if str_eq_dec a b then true else false.

(** [x in s] for a set (or tuple) of strings. *)
Definition mem (x : str) (s : list str) : bool := existsb (str_eqb x) s.

(** [len(s)] *)
Definition len {A} (s : list A) : Z := Z.of_nat (length s).

(** Python's index adjustment for a slice bound: a negative bound counts from
    the end, and every bound is clamped to [0 .. len]. *)
Definition adjust_index (i n : Z) : Z :=
  if i <? 0 then Z.max (i + n) 0 else Z.min i n.

(** [s[i:j]] *)
Definition slice {A} (s : list A) (i j : Z) : list A :=
  let lo := adjust_index i (len s) in
  let hi := adjust_index j (len s) in
  if lo <? hi then firstn (Z.to_nat (hi - lo)) (skipn (Z.to_nat lo) s) else [].

(** ** ContentChunker: [chunk_text] *)

Definition CHUNK_CHAR_SIZE : Z := 8000.

(** [range(i, stop, step)] for a positive step; for a step that is not
    positive the list is empty (the caller below rules out [step = 0], where
    Python raises, and for a negative step going up from [i <= stop] Python's
    range is empty too). *)
Equations? range_up (i stop step : Z) : list Z by wf (Z.to_nat (stop - i)) lt :=
  range_up i stop step with Z_lt_dec 0 step, Z_lt_dec i stop => {
    | left _, left _ := i :: range_up (i + step) stop step;
    | _, _ := [] }.
Proof. lia. Qed.

(** The outcome of a call that may raise. *)
Inductive result (A : Type) : Type :=
| Ok (a : A)
| Raise (e : str).
Arguments Ok {A} a.
Arguments Raise {A} e.

(** [chunk_text(text, size)].  [range] raises [ValueError] for a zero step. *)
Definition chunk_text (text : str) (size : Z) : result (list str) :=
  match text with
  | [] => Ok []
  | _ :: _ =>
      if size =? 0 then Raise (lit "range() arg 3 must not be zero")
      else Ok (map (fun i => slice text i (i + size))
                   (range_up 0 (len text) size))
  end.

(** [ceil(n / d)] on integers, for [d > 0]. *)
Definition ceil_div (n d : Z) : Z := (n + d - 1) / d.

(** ** Path and name helpers ([os.path], [str] methods) *)

Definition sep : ascii := "/"%char.
Definition extsep : ascii := "."%char.

Definition ends_with_sep (p : str) : bool :=
  match rev p with
  | c :: _ => Ascii.eqb c sep
  | [] => false
  end.

(** [os.path.join(a, b)] (posixpath), two arguments. *)
Definition path_join (a b : str) : str :=
  match b with
  | c :: _ =>
      if Ascii.eqb c sep then b
      else match a with
           | [] => b
           | _ => if ends_with_sep a then a ++ b else a ++ sep :: b
           end
  | [] =>
      match a with
      | [] => []
      | _ => if ends_with_sep a then a else a ++ [sep]
      end
  end.

(** [s.split(c)]: the pieces between the occurrences of [c]; never empty. *)
Fixpoint split_on (c : ascii) (s : str) : list str :=
  match s with
  | [] => [[]]
  | x :: s' =>
      if Ascii.eqb x c then [] :: split_on c s'
      else match split_on c s' with
           | w :: ws => (x :: w) :: ws
           | [] => [[x]]
           end
  end.

(** The truth value of a sequence: [bool(s)]. *)
Definition nonempty {A} (s : list A) : bool :=
  match s with [] => false | _ => true end.

(** [[x for x in p.split(sep) if x]]: the segments of a path. *)
Definition segments (p : str) : list str :=
  filter nonempty (split_on sep p).

(** [sep.join(l)] for any separator string. *)
Fixpoint str_join (s : str) (l : list str) : str :=
  match l with
  | [] => []
  | [x] => x
  | x :: l' => x ++ s ++ str_join s l'
  end.

(** [s.rfind(c)]: the last index of [c] in [s], or [-1]. *)
Fixpoint rfind_from (c : ascii) (s : str) (i : Z) (last : Z) : Z :=
  match s with
  | [] => last
  | x :: s' => rfind_from c s' (i + 1) (if Ascii.eqb x c then i else last)
  end.

Definition rfind (c : ascii) (s : str) : Z := rfind_from c s 0 (-1).

(** [os.path.splitext(p)]: the extension starts at the last dot of the last
    segment, unless only dots come before it in that segment. *)
Definition splitext (p : str) : str * str :=
  let sepIndex := rfind sep p in
  let dotIndex := rfind extsep p in
  if (sepIndex <? dotIndex)
     && existsb (fun c => negb (Ascii.eqb c extsep))
                (slice p (sepIndex + 1) dotIndex)
  then (slice p 0 dotIndex, slice p dotIndex (len p))
  else (p, []).

(** [c.lower()] on code points below 256: the letters A-Z and the capital
    letters of Latin-1 (0xC0-0xDE without the multiplication sign 0xD7). *)
Definition lower_char (c : ascii) : ascii :=
  let n := nat_of_ascii c in
  if ((65 <=? n) && (n <=? 90))%nat
     || ((192 <=? n) && (n <=? 222) && negb (n =? 215))%nat
  then ascii_of_nat (n + 32) else c.

Definition lower (s : str) : str := map lower_char s.

(** [c.isspace()] on code points below 256. *)
Definition isspace (c : ascii) : bool :=
  let n := nat_of_ascii c in
  (((9 <=? n) && (n <=? 13)) || ((28 <=? n) && (n <=? 32))
   || (n =? 133) || (n =? 160))%nat.

Fixpoint lstrip (s : str) : str :=
  match s with
  | c :: s' => if isspace c then lstrip s' else s
  | [] => []
  end.

Definition rstrip (s : str) : str := rev (lstrip (rev s)).

(** [s.strip()] *)
Definition strip (s : str) : str := rstrip (lstrip s).

(** ** The file system *)

(** A regular file: its size in bytes as [os.path.getsize] reports it, and
    what [open(path, "r", encoding="utf-8").read()] gives: the decoded text,
    or [None] when opening, reading or decoding raises. *)
Record file_data : Type := mkFile {
  f_size : Z;
  f_text : option str
}.

(** A directory entry as [os.scandir] yields it.  A directory carries its
    listing: [None] when [os.scandir] on it raises [PermissionError]. *)
Inductive node : Type :=
| File (name : str) (data : file_data)
| Dir (name : str) (listing : option (list node)).

(** A path string together with the file it names: the tree does not change
    during a run, so [os.path.getsize] and [open] on a discovered path see
    the file that [os.scandir] reported there. *)
Abbreviation fpath := (str * file_data)%type.

Definition getsize (p : fpath) : Z := f_size (snd p).

(** ** FileDiscoverer: [find_code_files_bfs] *)

Definition CODE_EXTENSIONS : list str :=
  map lit [".py"; ".js"; ".jsx"; ".ts"; ".tsx"; ".java"; ".go"; ".c"; ".cpp";
           ".hpp"; ".cs"; ".rb"; ".php"; ".html"; ".css"; ".scss"; ".yaml";
           ".yml"; ".sh"; ".rs"; ".prisma"]%string.

Definition EXCLUDE_DIRS : list str :=
  map lit ["node_modules"; "venv"; ".venv"; "env"; ".env"; "build"; "dist";
           "__pycache__"; ".git"]%string.

(** A queued directory: its path and what [os.scandir] will find there. *)
Abbreviation queued := (str * option (list node))%type.

(** The body of [for entry in os.scandir(current_dir)]: directories whose
    name is not excluded go to the back of the queue, files with a code
    extension to the back of [files]. *)
Fixpoint scan_entries (current_dir : str) (entries : list node)
    (queue : list queued) (files : list fpath) : list queued * list fpath :=
  match entries with
  | [] => (queue, files)
  | Dir name listing :: rest =>
      if negb (mem name EXCLUDE_DIRS)
      then scan_entries current_dir rest
             (queue ++ [(path_join current_dir name, listing)]) files
      else scan_entries current_dir rest queue files
  | File name data :: rest =>
      let ext := lower (snd (splitext name)) in
      if mem ext CODE_EXTENSIONS
      then scan_entries current_dir rest queue
             (files ++ [(path_join current_dir name, data)])
      else scan_entries current_dir rest queue files
  end.

(** The number of nodes of a tree, the measure of the traversal. *)
Fixpoint node_weight (n : node) : nat :=
  match n with
  | File _ _ => 1
  | Dir _ None => 1
  | Dir _ (Some l) => S (list_sum (map node_weight l))
  end.

Definition listing_weight (l : option (list node)) : nat :=
  match l with
  | None => 1
  | Some l => S (list_sum (map node_weight l))
  end.

Definition queue_weight (q : list queued) : nat :=
  list_sum (map (fun d => listing_weight (snd d)) q).

(** The [while queue:] loop.  [files] is the list being built; [scanned]
    records, in order, the directories on which [os.scandir] was called (it
    is not a variable of the source, but the trace of its calls).  A
    directory whose listing raises [PermissionError] is skipped. *)
Equations? bfs (queue : list queued) (files : list fpath) (scanned : list str)
  : list fpath * list str by wf (queue_weight queue) lt :=
  bfs [] files scanned := (files, scanned);
  bfs ((current_dir, None) :: queue) files scanned :=
    bfs queue files (scanned ++ [current_dir]);
  bfs ((current_dir, Some entries) :: queue) files scanned :=
    bfs (fst (scan_entries current_dir entries queue files))
        (snd (scan_entries current_dir entries queue files))
        (scanned ++ [current_dir]).
Proof.
  clear bfs.
  assert (Happ : forall (q : list queued) x,
             queue_weight (q ++ [x])
             = (queue_weight q + listing_weight (snd x))%nat).
  { intros q x. unfold queue_weight.
    rewrite map_app, list_sum_app. simpl. lia. }
  assert (E : forall nm l, node_weight (Dir nm l) = listing_weight l)
    by (intros nm [l|]; reflexivity).
  enough (H : forall es q fs,
             (queue_weight (fst (scan_entries current_dir es q fs))
              <= queue_weight q + list_sum (map node_weight es))%nat).
  { specialize (H entries queue files).
    change (queue_weight ((current_dir, Some entries) :: queue))
      with (S (list_sum (map node_weight entries)) + queue_weight queue)%nat.
    lia. }
  induction es as [|e es IH]; intros q fs.
  - simpl. lia.
  - change (list_sum (map node_weight (e :: es)))
      with (node_weight e + list_sum (map node_weight es))%nat.
    destruct e as [nm d | nm l]; cbn [scan_entries].
    + match goal with |- context [if ?b then _ else _] => destruct b end.
      * specialize (IH q (fs ++ [(path_join current_dir nm, d)])). lia.
      * specialize (IH q fs). lia.
    + rewrite E.
      match goal with |- context [if ?b then _ else _] => destruct b end.
      * specialize (IH (q ++ [(path_join current_dir nm, l)]) fs).
        rewrite Happ in IH. cbn [snd] in IH. lia.
      * specialize (IH q fs). lia.
Qed.

(** [list.sort(key=...)] is stable: an element goes before the first one of
    the sorted rest whose key is not smaller. *)
Fixpoint insert_by {A} (key : A -> Z) (x : A) (l : list A) : list A :=
  match l with
  | [] => [x]
  | y :: l' => if key x <=? key y then x :: l else y :: insert_by key x l'
  end.

Definition sort_by {A} (key : A -> Z) (l : list A) : list A :=
  fold_right (insert_by key) [] l.

(** The traversal of [find_code_files_bfs], before the sort. *)
Definition traverse (root : str) (top : option (list node))
  : list fpath * list str :=
  bfs [(root, top)] [] [].

(** [find_code_files_bfs(root)], where [top] is what [os.scandir(root)]
    finds. *)
Definition find_code_files_bfs (root : str) (top : option (list node))
  : list fpath :=
  sort_by getsize (fst (traverse root top)).

(** The directories the traversal scanned. *)
Definition scanned_dirs (root : str) (top : option (list node)) : list str :=
  snd (traverse root top).

(** ** [os.path.relpath] *)

Definition curdir : str := lit ".".
Definition pardir : str := lit "..".

(** [os.path.isabs(p)] *)
Definition isabs (p : str) : bool :=
  match p with
  | c :: _ => Ascii.eqb c sep
  | [] => false
  end.

(** [p.startswith(sep * n)] *)
Fixpoint starts_with_seps (n : nat) (p : str) : bool :=
  match n with
  | O => true
  | S n' => match p with
            | c :: p' => Ascii.eqb c sep && starts_with_seps n' p'
            | [] => false
            end
  end.

(** The count of leading slashes that [normpath] keeps: exactly two stay two,
    one or more than two become one. *)
Definition initial_slashes (p : str) : nat :=
  if starts_with_seps 1 p
  then if starts_with_seps 2 p && negb (starts_with_seps 3 p) then 2 else 1
  else 0.

(** One round of the loop [for comp in comps] of [normpath]. *)
Definition norm_step (slashes : nat) (new_comps : list str) (comp : str)
  : list str :=
  if str_eqb comp [] || str_eqb comp curdir then new_comps
  else if negb (str_eqb comp pardir)
          || ((slashes =? 0)%nat && negb (nonempty new_comps))
          || (nonempty new_comps && str_eqb (last new_comps []) pardir)
       then new_comps ++ [comp]
       else if nonempty new_comps then removelast new_comps
            else new_comps.

(** [os.path.normpath(path)] *)
Definition normpath (path : str) : str :=
  match path with
  | [] => curdir
  | _ =>
      let slashes := initial_slashes path in
      let comps := fold_left (norm_step slashes) (split_on sep path) [] in
      let path' := repeat sep slashes ++ str_join [sep] comps in
      if nonempty path' then path' else curdir
  end.

(** [os.path.abspath(path)], with [cwd] for [os.getcwd()]. *)
Definition abspath (cwd path : str) : str :=
  normpath (if isabs path then path else path_join cwd path).

(** [len(os.path.commonprefix([a, b]))] of two lists of segments. *)
Fixpoint common_prefix_len (a b : list str) : nat :=
  match a, b with
  | x :: a', y :: b' => if str_eqb x y then S (common_prefix_len a' b') else O
  | _, _ => O
  end.

(** [os.path.relpath(path, start)].  An empty [path] raises [ValueError]. *)
Definition relpath (cwd path start : str) : result str :=
  match path with
  | [] => Raise (lit "no path specified")
  | _ =>
      let start_list := segments (abspath cwd start) in
      let path_list := segments (abspath cwd path) in
      let i := common_prefix_len start_list path_list in
      let rel_list :=
        repeat pardir (length start_list - i) ++ skipn i path_list in
      match rel_list with
      | [] => Ok curdir
      | _ => Ok (str_join [sep] rel_list)
      end
  end.

(** ** SummarizationClient: [ollama_generate] *)

(** The body of one request: [{"model": model, "prompt": prompt}]. *)
Record request : Type := mkRequest {
  req_model : str;
  req_prompt : str
}.

(** What [data] holds under the key ["response"] after [json.loads]: nothing,
    a string, or a value that [output += ...] rejects with the error [e]. *)
Inductive response_field : Type :=
| Absent
| Text (s : str)
| NotText (e : str).

(** One item of [resp.iter_lines()]: an empty keep-alive line, a line that
    [decode] or [json.loads] (or the test [in data]) rejects with the error
    [e], or a decoded JSON object. *)
Inductive line : Type :=
| EmptyLine
| Malformed (e : str)
| Object (response : response_field).

(** What one HTTP exchange does: [requests.post] raises, [raise_for_status]
    raises, or a stream of lines arrives, which ends normally ([None]) or
    with [iter_lines] raising ([Some e]).  The strings are the texts of the
    exceptions. *)
Inductive exchange : Type :=
| PostRaises (e : str)
| StatusRaises (e : str)
| Streamed (lines : list line) (broken : option str).

(** The backend decides each exchange from the requests made before it and
    the present one. *)
Definition backend : Type := list request -> request -> exchange.

(** The loop [for line in resp.iter_lines()] over the lines that arrive. *)
Fixpoint read_lines (lines : list line) (output : str) : result str :=
  match lines with
  | [] => Ok output
  | EmptyLine :: rest => read_lines rest output
  | Malformed e :: _ => Raise e
  | Object Absent :: rest => read_lines rest output
  | Object (Text s) :: rest => read_lines rest (output ++ s)
  | Object (NotText e) :: _ => Raise e
  end.

(** The [try] block of [ollama_generate] on one exchange. *)
Definition try_generate (x : exchange) : result str :=
  match x with
  | PostRaises e => Raise e
  | StatusRaises e => Raise e
  | Streamed lines broken =>
      match read_lines lines [] with
      | Raise e => Raise e
      | Ok output =>
          match broken with
          | Some e => Raise e
          | None => Ok (strip output)
          end
      end
  end.

Definition error_marker (e : str) : str :=
  lit "[Error calling Ollama: " ++ e ++ lit "]".

(** [ollama_generate] on one exchange: [except Exception as e] turns every
    failure into the marker. *)
Definition generate_text (x : exchange) : str :=
  match try_generate x with
  | Ok text => text
  | Raise e => error_marker e
  end.

(** [ollama_generate(prompt, model)]: the text returned and the calls made so
    far, this one included. *)
Definition ollama_generate (be : backend) (prompt model : str)
    (calls : list request) : str * list request :=
  let req := mkRequest model prompt in
  (generate_text (be calls req), calls ++ [req]).

(** ** ChunkAggregator: [ollama_summarize_text_blocks] *)

(** The newline character of the prompts. *)
Definition nl : str := [ascii_of_nat 10].

Definition chunk_prompt (file_path chunk : str) : str :=
  lit "You are an expert software engineer and technical writer." ++ nl
  ++ lit "Analyze the following code excerpt from the file '" ++ file_path
  ++ lit "' and produce a clear, developer-friendly summary." ++ nl ++ nl
  ++ lit "For each excerpt, provide the following:" ++ nl
  ++ lit "1) One-sentence purpose." ++ nl
  ++ lit "2) Key components." ++ nl
  ++ lit "3) Functionality description." ++ nl
  ++ lit "4) Dependencies." ++ nl
  ++ lit "5) Edge cases or considerations." ++ nl ++ nl
  ++ lit "Code excerpt:" ++ nl ++ chunk ++ nl ++ nl.

Definition summary_separator : str := nl ++ nl ++ lit "---" ++ nl ++ nl.

Definition combined_prompt (file_path : str) (chunk_summaries : list str)
  : str :=
  lit "Combine these chunk-level summaries for file " ++ file_path
  ++ lit ":" ++ nl
  ++ lit "1) File summary" ++ nl ++ lit "2) Key components" ++ nl
  ++ lit "3) Actionable notes" ++ nl ++ nl
  ++ lit "Chunk summaries:" ++ nl ++ nl
  ++ str_join summary_separator chunk_summaries.

(** The loop [for chunk in blocks]: one call per chunk, in order, whatever
    the calls return. *)
Fixpoint summarize_chunks (be : backend) (blocks : list str)
    (file_path model : str) (chunk_summaries : list str)
    (calls : list request) : list str * list request :=
  match blocks with
  | [] => (chunk_summaries, calls)
  | chunk :: rest =>
      let r := ollama_generate be (chunk_prompt file_path chunk) model calls in
      summarize_chunks be rest file_path model
        (chunk_summaries ++ [fst r]) (snd r)
  end.

(** [ollama_summarize_text_blocks(blocks, file_path, model)] *)
Definition ollama_summarize_text_blocks (be : backend) (blocks : list str)
    (file_path model : str) (calls : list request) : str * list request :=
  let r := summarize_chunks be blocks file_path model [] calls in
  ollama_generate be (combined_prompt file_path (fst r)) model (snd r).

(** ** PipelineDriver: [read_file] and [main] *)

(** [read_file(path)]: any failure gives the empty string. *)
Definition read_file (p : fpath) : str :=
  match f_text (snd p) with
  | Some text => text
  | None => []
  end.

(** A Python [dict] with string keys: the items in insertion order. *)
Definition dict : Type := list (str * str).

(** [d[k] = v]: an existing key keeps its place and gets the new value, a new
    key goes to the end. *)
Fixpoint dict_set (d : dict) (k v : str) : dict :=
  match d with
  | [] => [(k, v)]
  | (k', v') :: d' =>
      if str_eqb k k' then (k', v) :: d' else (k', v') :: dict_set d' k v
  end.

(** [d.get(k)] *)
Fixpoint dict_get (d : dict) (k : str) : option str :=
  match d with
  | [] => None
  | (k', v') :: d' => if str_eqb k k' then Some v' else dict_get d' k
  end.

(** [list(d.keys())] *)
Definition dict_keys (d : dict) : list str := map fst d.

Definition bind {A B} (r : result A) (k : A -> result B) : result B :=
  match r with
  | Ok a => k a
  | Raise e => Raise e
  end.

Notation "x <- r ;; k" := (bind r (fun x => k))
  (at level 61, r at next level, right associativity).

Definition EMPTY_MARKER : str := lit "[empty or binary file]".

(** The state of the loop of [main]: [file_summaries] and the backend calls
    made so far. *)
Abbreviation run_state := (dict * list request)%type.

(** The body of [for i, fpath in enumerate(code_files)]. *)
Definition summarize_file (be : backend) (cwd repo_root model : str)
    (st : run_state) (f : fpath) : result run_state :=
  rel <- relpath cwd (fst f) repo_root ;;
  let content := read_file f in
  if negb (nonempty (strip content))
  then Ok (dict_set (fst st) rel EMPTY_MARKER, snd st)
  else
    blocks <- chunk_text content CHUNK_CHAR_SIZE ;;
    let r := ollama_summarize_text_blocks be blocks rel model (snd st) in
    Ok (dict_set (fst st) rel (fst r), snd r).

Fixpoint summarize_files (be : backend) (cwd repo_root model : str)
    (code_files : list fpath) (st : run_state) : result run_state :=
  match code_files with
  | [] => Ok st
  | f :: rest =>
      st' <- summarize_file be cwd repo_root model st f ;;
      summarize_files be cwd repo_root model rest st'
  end.

(** How [main] leaves its [try] block when nothing raises: on the early
    [return], or with the summaries handed to [write_docx]. *)
Inductive outcome : Type :=
| NoCodeFiles
| Documented (file_summaries : dict) (calls : list request).

(** [main], from the cloned tree to the call of [write_docx]: [repo_root] is
    the path [clone_repo] returned, [top] what [os.scandir] finds there and
    [model] is [args.model]. *)
Definition main (be : backend) (cwd repo_root : str)
    (top : option (list node)) (model : str) : result outcome :=
  let code_files := find_code_files_bfs repo_root top in
  if negb (nonempty code_files) then Ok NoCodeFiles
  else
    st <- summarize_files be cwd repo_root model code_files ([], []) ;;
    Ok (Documented (fst st) (snd st)).

(** ** Acquisition: [get_unique_repo_path] *)

(** [Path(base_path).resolve()]: the parent directory and the last
    component. *)
Record posix_path : Type := mkPath {
  parent : str;
  name : str
}.

(** [str(path)] *)
Definition path_str (p : posix_path) : str := path_join (parent p) (name p).

(** [str(n)] for an [int]. *)
Definition str_of_int (n : Z) : str :=
  list_ascii_of_string (DecimalString.NilZero.string_of_int (Z.to_int n)).

(** [path.parent / f"{path.name}_{counter}"] *)
Definition numbered (p : posix_path) (counter : Z) : posix_path :=
  mkPath (parent p) (name p ++ lit "_" ++ str_of_int counter).

(** The paths that exist: finitely many. *)
Definition path_exists (existing : list str) (p : posix_path) : bool :=
  mem (path_str p) existing.

(** The loop [while True] with [counter], run for at most [fuel] rounds;
    [None] when the rounds are used up. *)
Fixpoint unique_loop (existing : list str) (p : posix_path) (fuel : nat)
    (counter : Z) : option str :=
  match fuel with
  | O => None
  | S fuel' =>
      let new_path := numbered p counter in
      if negb (path_exists existing new_path) then Some (path_str new_path)
      else unique_loop existing p fuel' (counter + 1)
  end.

(** [get_unique_repo_path]: [p] is the resolved [base_path]. *)
Definition get_unique_repo_path (existing : list str) (p : posix_path)
    (fuel : nat) : option str :=
  if negb (path_exists existing p) then Some (path_str p)
  else unique_loop existing p fuel 1.

(** ** Vocabulary of the statements *)

(** A name that a directory entry can have: not empty, without a slash, and
    neither [.] nor [..] (which [os.scandir] never yields). *)
Definition valid_name (nm : str) : bool :=
  nonempty nm && negb (existsb (Ascii.eqb sep) nm)
  && negb (str_eqb nm curdir) && negb (str_eqb nm pardir).

Definition node_name (n : node) : str :=
  match n with
  | File nm _ => nm
  | Dir nm _ => nm
  end.

Fixpoint distinct (l : list str) : bool :=
  match l with
  | [] => true
  | x :: l' => negb (mem x l') && distinct l'
  end.

(** A well-formed tree: every name is valid and the entries of one directory
    have different names. *)
Fixpoint wf_node (n : node) : bool :=
  match n with
  | File nm _ => valid_name nm
  | Dir nm None => valid_name nm
  | Dir nm (Some l) =>
      valid_name nm && forallb wf_node l && distinct (map node_name l)
  end.

Definition wf_listing (top : option (list node)) : bool :=
  match top with
  | None => true
  | Some l => forallb wf_node l && distinct (map node_name l)
  end.

(** [name] has a code extension: the test of [find_code_files_bfs] on a
    file. *)
Definition is_code_file (nm : str) : bool :=
  mem (lower (snd (splitext nm))) CODE_EXTENSIONS.

(** The files a traversal from [n] reaches, each with the names on the way
    from [n] to it, [n]'s own name first. *)
Fixpoint chains_under (n : node) : list (list str * file_data) :=
  match n with
  | File nm d => if is_code_file nm then [([nm], d)] else []
  | Dir nm None => []
  | Dir nm (Some l) =>
      if negb (mem nm EXCLUDE_DIRS)
      then map (fun c => (nm :: fst c, snd c)) (flat_map chains_under l)
      else []
  end.

Definition chains_of (top : option (list node))
  : list (list str * file_data) :=
  match top with
  | None => []
  | Some l => flat_map chains_under l
  end.

(** The path [os.scandir] builds for the entry reached from [dir] through
    [names]. *)
Definition path_of (dir : str) (names : list str) : str :=
  fold_left path_join names dir.

(** The text fragments of the lines of a stream, in arrival order. *)
Fixpoint fragments (lines : list line) : list str :=
  match lines with
  | [] => []
  | Object (Text s) :: rest => s :: fragments rest
  | _ :: rest => fragments rest
  end.

(** The error of the first line that the loop of [ollama_generate] cannot
    process, if there is one. *)
Fixpoint first_error (lines : list line) : option str :=
  match lines with
  | [] => None
  | Malformed e :: _ => Some e
  | Object (NotText e) :: _ => Some e
  | _ :: rest => first_error rest
  end.

(** A file whose content [main] takes for empty: nothing is left of what
    [read_file] returns after [strip]. *)
Definition blank (f : fpath) : bool := negb (nonempty (strip (read_file f))).

(** [sum(len(c) for c in chunks)] *)
Definition total_len (chunks : list str) : Z :=
  fold_right Z.add 0 (map len chunks).

(** The order of two elements by their sort keys. *)
Definition key_le {A} (key : A -> Z) (a b : A) : Prop := key a <= key b.

(** The directories a traversal from [n] scans, each with the names on the
    way from [n] to it. *)
Fixpoint dir_chains_under (n : node) : list (list str) :=
  match n with
  | File _ _ => []
  | Dir nm l =>
      if negb (mem nm EXCLUDE_DIRS)
      then [nm] :: match l with
                   | None => []
                   | Some l => map (cons nm) (flat_map dir_chains_under l)
                   end
      else []
  end.

Definition dir_chains_of (top : option (list node)) : list (list str) :=
  match top with
  | None => []
  | Some l => flat_map dir_chains_under l
  end.

(** The files reached from directory [dir] with listing [l], with their
    paths. *)
Definition files_of (dir : str) (l : option (list node)) : list fpath :=
  map (fun c => (path_of dir (fst c), snd c)) (chains_of l).

(** The directories scanned from a queued directory, with their paths: the
    directory itself and those reached from it. *)
Definition dirs_of (dir : str) (l : option (list node)) : list str :=
  dir :: map (path_of dir) (dir_chains_of l).

(** [name not in EXCLUDE_DIRS] *)
Definition not_excluded (nm : str) : Prop := mem nm EXCLUDE_DIRS = false.

(** A string without a slash. *)
Definition sep_free (s : str) : Prop := existsb (Ascii.eqb sep) s = false.

(** The segments [normpath] keeps of an absolute path with the segments
    [segs]. *)
Definition normalize (segs : list str) : list str :=
  fold_left (norm_step 1) segs [].

(** A segment as [normpath] keeps it: not empty and without a slash. *)
Definition plain_segment (s : str) : Prop := s <> [] /\ sep_free s.

(** A small checkout: two code files, a directory of sources, an excluded
    directory with a code file in it, and a directory that cannot be
    listed. *)
Definition sample_tree : option (list node) :=
  Some [ Dir (lit "src")
           (Some [ File (lit "b.py") (mkFile 9000 (Some (lit "print(1)")));
                   File (lit "a.py") (mkFile 50 (Some (lit "  ")));
                   File (lit "notes.txt") (mkFile 7 (Some (lit "todo")));
                   Dir (lit "build")
                     (Some [File (lit "gen.py") (mkFile 3 None)]) ]);
         Dir (lit "node_modules")
           (Some [File (lit "c.py") (mkFile 12 (Some (lit "x = 1")))]);
         File (lit "main.js") (mkFile 50 (Some [])) ;
         File (lit "blob.rs") (mkFile 20 None);
         Dir (lit "private") None ].

(** A degraded result: the marker [ollama_generate] returns for a failed
    call. *)
Definition degraded (s : str) : Prop := exists e, s = error_marker e.

(** A backend of which every call fails. *)
Definition always_failing (be : backend) : Prop :=
  forall calls req, exists e, try_generate (be calls req) = Raise e.

(** The key of a discovered file in [file_summaries]: its path relative to
    the root ([""] stands for a path [relpath] rejects). *)
Definition rel_key (cwd root : str) (f : fpath) : str :=
  match relpath cwd (fst f) root with
  | Ok k => k
  | Raise _ => []
  end.

(** A backend that answers every request with one line of text. *)
Definition steady_backend (answer : str) : backend :=
  fun _ _ => Streamed [Object (Text answer)] None.

(** A backend that cannot be reached. *)
Definition dead_backend : backend :=
  fun _ _ => PostRaises (lit "Connection refused").

(** Where the sample checkout lies, and the working directory of the run. *)
Definition sample_root : str := lit "/work/repo".
Definition sample_cwd : str := lit "/home/dev".
Definition sample_model : str := lit "gemma:2b".

(** The four code files of the sample checkout, as the discovery returns
    them. *)
Definition blob_rs : fpath := (lit "/work/repo/blob.rs", mkFile 20 None).
Definition main_js : fpath := (lit "/work/repo/main.js", mkFile 50 (Some [])).
Definition a_py : fpath :=
  (lit "/work/repo/src/a.py", mkFile 50 (Some (lit "  "))).
Definition b_py : fpath :=
  (lit "/work/repo/src/b.py", mkFile 9000 (Some (lit "print(1)"))).


(** The depth of a path: the number of its segments. *)
Definition depth (p : str) : Z := len (segments p).

(** The depth of a discovered file and of a queued directory. *)
Definition file_depth (f : fpath) : Z := depth (fst f).
Definition dir_depth (d : queued) : Z := depth (fst d).

(** What the loop of the traversal keeps true while it scans directories of
    depth [e] and [e + 1]: the queue and the files are in order of depth, no
    file collected so far lies below depth [e + 1], and the queued listings
    are well-formed. *)
Definition bfs_inv (e : Z) (q : list queued) (fs : list fpath) : Prop :=
  Forall (fun d => e <= dir_depth d <= e + 1) q
  /\ StronglySorted (key_le dir_depth) q
  /\ Forall (fun f => file_depth f <= e + 1) fs
  /\ StronglySorted (key_le file_depth) fs
  /\ Forall (fun d => wf_listing (snd d) = true) q.

(** A line that can change the outcome of [ollama_generate]: any line but an
    empty one or an object without the key ["response"]. *)
Definition relevant (l : line) : bool :=
  match l with
  | EmptyLine => false
  | Object Absent => false
  | _ => true
  end.

(** The requests of the per-chunk phase, in order. *)
Definition chunk_requests (model file_path : str) (blocks : list str)
  : list request :=
  map (fun chunk => mkRequest model (chunk_prompt file_path chunk)) blocks.

(** The request of the combine phase. *)
Definition combine_request (model file_path : str) (sums : list str)
  : request :=
  mkRequest model (combined_prompt file_path sums).

Definition no_request : request := mkRequest [] [].

(** The backend requests [c] that the round of [main] for the file [f]
    makes: none for blank content, otherwise one per chunk of 8000
    characters and the combine request, all for the relative path of the
    file. *)
Definition file_calls (cwd root model : str) (f : fpath) (c : list request)
  : Prop :=
  exists k,
    relpath cwd (fst f) root = Ok k
    /\ (blank f = true -> c = [])
    /\ (blank f = false ->
        exists blocks sums,
          chunk_text (read_file f) CHUNK_CHAR_SIZE = Ok blocks
          /\ len blocks = ceil_div (len (read_file f)) CHUNK_CHAR_SIZE
          /\ length sums = length blocks
          /\ c = chunk_requests model k blocks
                 ++ [combine_request model k sums]).

(** ** ReportAssembler: [detect_top_level_info] and [write_docx] *)





(** [s.startswith(old)] *)
Fixpoint starts_with (old s : str) : bool :=
  match old, s with
  | [], _ => true
  | c :: old', x :: s' => Ascii.eqb c x && starts_with old' s'
  | _ :: _, [] => false
  end.

(** [s.replace(old, new)] for [old] that is not empty, from left to right
    over occurrences that do not overlap: [skip] counts the characters of an
    occurrence that are still to be dropped. *)
Fixpoint replace_go (old new s : str) (skip : nat) : str :=
  match s with
  | [] => []
  | c :: s' =>
      match skip with
      | S k => replace_go old new s' k
      | O =>
          if starts_with old s
          then new ++ replace_go old new s' (length old - 1)
          else c :: replace_go old new s' 0
      end
  end.

(** [s.replace(old, new)]; an empty [old] matches before every character and
    at the end. *)
Definition str_replace (s old new : str) : str :=
  match old with
  | [] => new ++ flat_map (fun c => c :: new) s
  | _ => replace_go old new s 0
  end.

(** [s.lstrip(chars)] *)
Fixpoint lstrip_chars (chars s : str) : str :=
  match s with
  | c :: s' => if existsb (Ascii.eqb c) chars then lstrip_chars chars s' else s
  | [] => []
  end.

(** The text of the heading of one file:
    [path.replace(str(repo_root), "").lstrip(os.sep)]. *)
Definition doc_heading (repo_root path : str) : str :=
  lstrip_chars [sep] (str_replace path repo_root []).

(** What [write_docx] adds to the document, in order. *)
Inductive doc_item : Type :=
| Heading (text : str) (level : Z)
| Paragraph (text : str)
| PageBreak.

Definition NO_DEPS : str := lit "No dependency files were found.".

(** [write_docx]: the items of the document that is saved. *)
Definition write_docx (repo_url repo_root deps_summary : str)
    (file_summaries : dict) : list doc_item :=
  [ Heading (lit "Repository Documentation") 0;
    Paragraph (lit "Repository: " ++ repo_url);
    Paragraph (lit "Scanned path: " ++ repo_root);
    Paragraph (lit "Generated by: docgen.py (Ollama backend)");
    Heading (lit "Dependencies & Top-level Files") 1;
    Paragraph (if nonempty deps_summary then deps_summary else NO_DEPS);
    Heading (lit "File Summaries") 1 ]
  ++ flat_map (fun kv => [Heading (doc_heading repo_root (fst kv)) 2;
                          Paragraph (snd kv)])
              file_summaries
  ++ [PageBreak].

(** [old] occurs in [s]. *)
Definition occurs (old s : str) : Prop := exists a b, s = a ++ old ++ b.

(** The headings of the files in a document, with the summary under each. *)
Fixpoint file_sections (items : list doc_item) : list (str * str) :=
  match items with
  | Heading text 2 :: Paragraph summary :: rest =>
      (text, summary) :: file_sections rest
  | _ :: rest => file_sections rest
  | [] => []
  end.

(** The tree in which every directory that cannot be listed is replaced by
    an empty one. *)
Fixpoint open_node (n : node) : node :=
  match n with
  | File nm d => File nm d
  | Dir nm None => Dir nm (Some [])
  | Dir nm (Some l) => Dir nm (Some (map open_node l))
  end.

Definition open_listing (l : option (list node)) : option (list node) :=
  match l with
  | None => Some []
  | Some l => Some (map open_node l)
  end.

Definition open_queued (d : queued) : queued := (fst d, open_listing (snd d)).

(** * Properties *)

(** ** ContentChunker *)

Lemma len_nonneg {A} (s : list A) : 0 <= len s.
Proof. unfold len. lia. Qed.

Lemma slice_inside {A} (s : list A) (i j : Z) :
  0 <= i -> i < j -> i < len s ->
  slice s i j
  = firstn (Z.to_nat (Z.min j (len s) - i)) (skipn (Z.to_nat i) s).
Proof.
  intros Hi Hij Hlen. unfold slice, adjust_index.
  destruct (Z.ltb_spec i 0); [lia|].
  destruct (Z.ltb_spec j 0); [lia|].
  rewrite (Z.min_l i (len s)) by lia.
  destruct (Z.ltb_spec i (Z.min j (len s))); [reflexivity | lia].
Qed.

(** A chunk followed by the rest of the text from its end is the text from
    its start. *)
Lemma slice_then_rest {A} (s : list A) (i size : Z) :
  0 <= i -> 0 < size -> i < len s ->
  slice s i (i + size) ++ skipn (Z.to_nat (i + size)) s
  = skipn (Z.to_nat i) s.
Proof.
  intros Hi Hs Hlen. rewrite slice_inside by lia.
  destruct (Z.le_gt_cases (i + size) (len s)) as [Hin|Hout].
  - rewrite Z.min_l by lia.
    replace (Z.to_nat (i + size))
      with (Z.to_nat (i + size - i) + Z.to_nat i)%nat by lia.
    rewrite <- skipn_skipn. apply firstn_skipn.
  - rewrite Z.min_r by lia.
    rewrite (skipn_all2 s (n := Z.to_nat (i + size)))
      by (unfold len in *; lia).
    rewrite app_nil_r. apply firstn_all2.
    rewrite length_skipn. unfold len in *. lia.
Qed.

Lemma chunks_from (text : str) (size i stop : Z) :
  stop = len text -> 0 <= i ->
  0 < size ->
  concat (map (fun k => slice text k (k + size)) (range_up i stop size))
  = skipn (Z.to_nat i) text.
Proof.
  funelim (range_up i stop size); intros Hstop Hi Hsize.
  - cbn [map concat]. rewrite H by lia.
    subst stop. apply slice_then_rest; lia.
  - lia.
  - cbn [map concat]. symmetry. apply skipn_all2.
    subst stop. unfold len in *. lia.
Qed.

Lemma range_up_length (i stop step : Z) :
  0 < step ->
  len (range_up i stop step) = Z.max 0 (ceil_div (stop - i) step).
Proof.
  unfold ceil_div. funelim (range_up i stop step); intros Hstep.
  - unfold len in *. cbn [length]. rewrite Nat2Z.inj_succ, H by lia.
    replace (stop - i + step - 1) with ((stop - i - 1) + 1 * step) by lia.
    rewrite Z.div_add by lia.
    replace (stop - (i + step) + step - 1) with (stop - i - 1) by lia.
    assert (0 <= (stop - i - 1) / step) by (apply Z.div_pos; lia).
    lia.
  - lia.
  - unfold len. cbn [length].
    assert ((stop - i + step - 1) / step < 1)
      by (apply Z.div_lt_upper_bound; lia).
    lia.
Qed.

(** [ceil_div n d] is the least number of blocks of [d] that cover [n]. *)
Lemma ceil_div_spec (n d : Z) :
  0 < d -> d * (ceil_div n d - 1) < n <= d * ceil_div n d.
Proof.
  intros Hd. unfold ceil_div.
  pose proof (Z.div_mod (n + d - 1) d ltac:(lia)) as E.
  pose proof (Z.mod_pos_bound (n + d - 1) d Hd) as B.
  lia.
Qed.

Lemma total_len_concat (chunks : list str) :
  total_len chunks = len (concat chunks).
Proof.
  unfold total_len, len. induction chunks as [|c chunks IH]; cbn.
  - reflexivity.
  - rewrite length_app, Nat2Z.inj_add. unfold len in IH. cbn in IH. lia.
Qed.

(** What [chunk_text] returns for a text that is not empty. *)
Lemma chunk_text_nonempty (text : str) (size : Z) :
  text <> [] -> size <> 0 ->
  chunk_text text size
  = Ok (map (fun i => slice text i (i + size)) (range_up 0 (len text) size)).
Proof.
  intros Hne Hsize. unfold chunk_text. destruct text; [contradiction |].
  destruct (Z.eqb_spec size 0); [contradiction | reflexivity].
Qed.

(** The chunks of a positive size cover the text, in order. *)
Lemma chunk_text_concat (text : str) (size : Z) :
  0 < size ->
  exists chunks, chunk_text text size = Ok chunks /\ concat chunks = text.
Proof.
  intros Hsize. destruct text as [|c text].
  - exists []. split; reflexivity.
  - eexists. split; [apply chunk_text_nonempty; [discriminate | lia] |].
    rewrite (chunks_from _ size 0 (len (c :: text))) by lia. reflexivity.
Qed.

(** C1.  For every text and every positive chunk size, [chunk_text] returns
    chunks whose concatenation in index order is the text, whose lengths add
    up to the length of the text, and whose number is
    [ceil(len(text) / size)]: the least [k] with [len(text) <= size * k],
    which is [0] for the empty text. *)
Theorem chunk_text_partition (text : str) (size : Z) :
  0 < size ->
  exists chunks,
    chunk_text text size = Ok chunks
    /\ concat chunks = text
    /\ total_len chunks = len text
    /\ len chunks = ceil_div (len text) size
    /\ size * (len chunks - 1) < len text <= size * len chunks
    /\ (text = [] -> chunks = []).
Proof.
  intros Hsize.
  destruct (chunk_text_concat text size Hsize) as [chunks [Hr Hc]].
  assert (Hn : len chunks = ceil_div (len text) size).
  { destruct text as [|c text].
    - injection Hr as <-. unfold ceil_div, len. cbn.
      rewrite Z.div_small by lia. reflexivity.
    - rewrite chunk_text_nonempty in Hr by (discriminate || lia).
      injection Hr as <-. unfold len at 1. rewrite length_map.
      fold (len (range_up 0 (len (c :: text)) size)).
      rewrite range_up_length by lia. rewrite Z.sub_0_r.
      pose proof (ceil_div_spec (len (c :: text)) size Hsize).
      pose proof (len_nonneg (c :: text)). nia. }
  pose proof (ceil_div_spec (len text) size Hsize) as Hcd.
  rewrite <- Hn in Hcd.
  exists chunks. repeat split; try tauto.
  - rewrite total_len_concat, Hc. reflexivity.
  - intros ->. injection Hr as <-. reflexivity.
Qed.

Lemma chunk_text_partition_witness :
  0 < 3
  /\ exists chunks,
       chunk_text (lit "abcdefg") 3 = Ok chunks
       /\ concat chunks = lit "abcdefg"
       /\ total_len chunks = len (lit "abcdefg")
       /\ len chunks = ceil_div (len (lit "abcdefg")) 3
       /\ 3 * (len chunks - 1) < len (lit "abcdefg") <= 3 * len chunks
       /\ (lit "abcdefg" = [] -> chunks = []).
Proof.
  split; [lia | apply (chunk_text_partition (lit "abcdefg") 3); lia].
Defined.

(** ** The sort of the discovered files *)

Section SortBy.
Context {A : Type} (key : A -> Z).

Lemma insert_by_perm (x : A) (l : list A) :
  Permutation (insert_by key x l) (x :: l).
Proof.
  induction l as [|y l IH]; cbn.
  - reflexivity.
  - destruct (key x <=? key y).
    + reflexivity.
    + rewrite IH. apply perm_swap.
Qed.

Lemma sort_by_perm (l : list A) : Permutation (sort_by key l) l.
Proof.
  induction l as [|x l IH]; cbn.
  - reflexivity.
  - rewrite insert_by_perm. apply perm_skip, IH.
Qed.

Lemma insert_by_hd (x a : A) (l : list A) :
  (key_le key) a x -> HdRel (key_le key) a l ->
  HdRel (key_le key) a (insert_by key x l).
Proof.
  intros Hax Hal. destruct l as [|y l]; cbn.
  - constructor. exact Hax.
  - destruct (key x <=? key y); constructor.
    + exact Hax.
    + inversion Hal; assumption.
Qed.

Lemma insert_by_sorted (x : A) (l : list A) :
  Sorted (key_le key) l -> Sorted (key_le key) (insert_by key x l).
Proof.
  induction 1 as [|y l Hs IH Hhd]; cbn.
  - repeat constructor.
  - destruct (Z.leb_spec (key x) (key y)) as [Hle|Hgt].
    + constructor; [constructor; assumption | constructor; exact Hle].
    + constructor; [exact IH |].
      apply insert_by_hd; [unfold key_le; lia | exact Hhd].
Qed.

Lemma sort_by_sorted (l : list A) : Sorted (key_le key) (sort_by key l).
Proof.
  induction l as [|x l IH]; cbn.
  - constructor.
  - apply insert_by_sorted, IH.
Qed.

Lemma sort_by_strongly_sorted (l : list A) :
  StronglySorted (key_le key) (sort_by key l).
Proof.
  apply Sorted_StronglySorted; [| apply sort_by_sorted].
  intros a b c. unfold key_le. lia.
Qed.

(** The sort is stable: the elements of any one key keep their order. *)
Lemma insert_by_stable (k : Z) (x : A) (l : list A) :
  Sorted (key_le key) l ->
  filter (fun a => key a =? k) (insert_by key x l)
  = filter (fun a => key a =? k) (x :: l).
Proof.
  induction 1 as [|y l Hs IH Hhd]; cbn.
  - reflexivity.
  - destruct (Z.leb_spec (key x) (key y)) as [Hle|Hgt]; cbn.
    + reflexivity.
    + rewrite IH. cbn.
      destruct (Z.eqb_spec (key x) k), (Z.eqb_spec (key y) k);
        try reflexivity.
      lia.
Qed.

Lemma sort_by_stable (k : Z) (l : list A) :
  filter (fun a => key a =? k) (sort_by key l)
  = filter (fun a => key a =? k) l.
Proof.
  induction l as [|x l IH].
  - reflexivity.
  - change (sort_by key (x :: l)) with (insert_by key x (sort_by key l)).
    rewrite insert_by_stable by apply sort_by_sorted.
    cbn [filter]. rewrite IH. reflexivity.
Qed.

Lemma sort_by_length (l : list A) : length (sort_by key l) = length l.
Proof. apply Permutation_length, sort_by_perm. Qed.
End SortBy.

(** C8.  The list [find_code_files_bfs] returns is in non-decreasing order of
    file size: every file in it is no larger than each file after it.  It
    holds the files of the traversal, reordered, and files of the same size
    keep their traversal order. *)
Theorem find_code_files_sorted_by_size (root : str) (top : option (list node)) :
  StronglySorted (fun a b => getsize a <= getsize b)
                 (find_code_files_bfs root top)
  /\ Permutation (find_code_files_bfs root top) (fst (traverse root top))
  /\ forall k,
       filter (fun a => getsize a =? k) (find_code_files_bfs root top)
       = filter (fun a => getsize a =? k) (fst (traverse root top)).
Proof.
  unfold find_code_files_bfs. repeat split.
  - apply (sort_by_strongly_sorted getsize).
  - apply sort_by_perm.
  - intros k. apply sort_by_stable.
Qed.

(** ** FileDiscoverer: what the traversal collects *)

Lemma files_of_dir (dir nm : str) (l : option (list node)) :
  map (fun c => (path_of dir (fst c), snd c)) (chains_under (Dir nm l))
  = if negb (mem nm EXCLUDE_DIRS) then files_of (path_join dir nm) l else [].
Proof.
  unfold files_of. destruct l as [l|]; cbn [chains_under chains_of].
  - destruct (negb (mem nm EXCLUDE_DIRS)); [| reflexivity].
    rewrite map_map. reflexivity.
  - destruct (negb (mem nm EXCLUDE_DIRS)); reflexivity.
Qed.

Lemma dirs_of_dir (dir nm : str) (l : option (list node)) :
  map (path_of dir) (dir_chains_under (Dir nm l))
  = if negb (mem nm EXCLUDE_DIRS) then dirs_of (path_join dir nm) l else [].
Proof.
  unfold dirs_of. cbn [dir_chains_under].
  destruct (negb (mem nm EXCLUDE_DIRS)); [| reflexivity].
  cbn [map]. f_equal. destruct l as [l|]; cbn [dir_chains_of map].
  - rewrite map_map. reflexivity.
  - reflexivity.
Qed.

(** One scan moves the files of the scanned entries to [files] and queues
    the directories that are not excluded. *)
Lemma scan_entries_files (dir : str) (es : list node) :
  forall (q : list queued) (fs : list fpath),
    Permutation
      (snd (scan_entries dir es q fs)
       ++ flat_map (fun d => files_of (fst d) (snd d))
                   (fst (scan_entries dir es q fs)))
      (fs ++ flat_map (fun d => files_of (fst d) (snd d)) q
          ++ files_of dir (Some es)).
Proof.
  unfold files_of at 3. cbn [chains_of].
  induction es as [|e es IH]; intros q fs.
  - cbn. rewrite app_nil_r. reflexivity.
  - cbn [flat_map]. rewrite map_app.
    destruct e as [nm d | nm l]; cbn [scan_entries].
    + cbn [chains_under]. fold (is_code_file nm).
      destruct (is_code_file nm); cbn [map app].
      * rewrite IH. rewrite <- app_assoc. cbn [app].
        apply Permutation_app_head. apply Permutation_middle.
      * apply IH.
    + rewrite files_of_dir.
      destruct (negb (mem nm EXCLUDE_DIRS)).
      * rewrite IH. rewrite flat_map_app. cbn [flat_map fst snd].
        rewrite app_nil_r, <- !app_assoc. reflexivity.
      * apply IH.
Qed.

Lemma scan_entries_dirs (dir : str) (es : list node) :
  forall (q : list queued) (fs : list fpath),
    flat_map (fun d => dirs_of (fst d) (snd d))
             (fst (scan_entries dir es q fs))
    = flat_map (fun d => dirs_of (fst d) (snd d)) q
      ++ map (path_of dir) (dir_chains_of (Some es)).
Proof.
  cbn [dir_chains_of].
  induction es as [|e es IH]; intros q fs.
  - cbn. rewrite app_nil_r. reflexivity.
  - cbn [flat_map]. rewrite map_app.
    destruct e as [nm d | nm l]; cbn [scan_entries].
    + cbn [dir_chains_under map app].
      match goal with |- context [if ?b then _ else _] => destruct b end;
        apply IH.
    + rewrite dirs_of_dir.
      destruct (negb (mem nm EXCLUDE_DIRS)).
      * rewrite IH. rewrite flat_map_app. cbn [flat_map fst snd].
        rewrite app_nil_r, <- !app_assoc. reflexivity.
      * apply IH.
Qed.

(** The traversal returns the files it started with and the files reached
    from the queued directories. *)
Lemma bfs_files (queue : list queued) (files : list fpath)
    (scanned : list str) :
  Permutation (fst (bfs queue files scanned))
              (files ++ flat_map (fun d => files_of (fst d) (snd d)) queue).
Proof.
  funelim (bfs queue files scanned).
  - cbn. rewrite app_nil_r. reflexivity.
  - rewrite H. etransitivity; [apply scan_entries_files |].
    cbn [flat_map fst snd]. apply Permutation_app_head.
    apply Permutation_app_comm.
  - rewrite H. cbn [flat_map fst snd]. reflexivity.
Qed.

(** It scans the directories scanned before, the queued ones and those
    reached from them, each once. *)
Lemma bfs_scanned (queue : list queued) (files : list fpath)
    (scanned : list str) :
  Permutation (snd (bfs queue files scanned))
              (scanned ++ flat_map (fun d => dirs_of (fst d) (snd d)) queue).
Proof.
  funelim (bfs queue files scanned).
  - cbn. rewrite app_nil_r. reflexivity.
  - rewrite H. rewrite scan_entries_dirs.
    cbn [flat_map fst snd]. rewrite <- app_assoc.
    apply Permutation_app_head. unfold dirs_of at 2. cbn [app].
    apply perm_skip. apply Permutation_app_comm.
  - rewrite H. cbn [flat_map fst snd]. rewrite <- app_assoc.
    reflexivity.
Qed.

Lemma traverse_files (root : str) (top : option (list node)) :
  Permutation (fst (traverse root top)) (files_of root top).
Proof.
  unfold traverse. rewrite bfs_files. cbn. rewrite app_nil_r. reflexivity.
Qed.

Lemma traverse_scanned (root : str) (top : option (list node)) :
  Permutation (scanned_dirs root top) (dirs_of root top).
Proof.
  unfold scanned_dirs, traverse. rewrite bfs_scanned.
  cbn [flat_map fst snd app].
  rewrite app_nil_r. reflexivity.
Qed.

Lemma find_code_files_perm (root : str) (top : option (list node)) :
  Permutation (find_code_files_bfs root top) (files_of root top).
Proof.
  unfold find_code_files_bfs. rewrite sort_by_perm. apply traverse_files.
Qed.

(** Induction over a tree, through the listings of its directories. *)
Lemma node_induction (P : node -> Prop) :
  (forall nm d, P (File nm d)) ->
  (forall nm, P (Dir nm None)) ->
  (forall nm l, Forall P l -> P (Dir nm (Some l))) ->
  forall n, P n.
Proof.
  intros HF HN HD. fix IH 1. intros [nm d | nm [l|]].
  - apply HF.
  - apply HD. induction l as [|a l IHl]; constructor; [apply IH | exact IHl].
  - apply HN.
Qed.

Lemma str_eqb_eq (a b : str) : str_eqb a b = true <-> a = b.
Proof.
  unfold str_eqb. destruct (str_eq_dec a b); split; congruence.
Qed.

Lemma str_eqb_refl (a : str) : str_eqb a a = true.
Proof. apply str_eqb_eq. reflexivity. Qed.

Lemma str_eqb_neq (a b : str) : str_eqb a b = false <-> a <> b.
Proof.
  unfold str_eqb. destruct (str_eq_dec a b); split; congruence.
Qed.

Lemma mem_In (x : str) (s : list str) : mem x s = true <-> In x s.
Proof.
  unfold mem. rewrite existsb_exists. split.
  - intros [y [Hy E]]. apply str_eqb_eq in E. subst. exact Hy.
  - intros H. exists x. split; [exact H | apply str_eqb_refl].
Qed.

Lemma mem_not_In (x : str) (s : list str) : mem x s = false <-> ~ In x s.
Proof.
  rewrite <- mem_In. destruct (mem x s); split; congruence.
Qed.

(** No excluded name has a code extension, so a file that is collected is
    not named like an excluded directory. *)
Lemma code_file_not_excluded (nm : str) :
  is_code_file nm = true -> mem nm EXCLUDE_DIRS = false.
Proof.
  intros Hc. destruct (mem nm EXCLUDE_DIRS) eqn:E; [| reflexivity].
  apply mem_In in E. cbv [EXCLUDE_DIRS map] in E. cbn [In] in E.
  repeat (destruct E as [E|E];
          [subst nm; vm_compute in Hc; discriminate |]).
  contradiction.
Qed.

(** Every name on the way to a collected file passed the exclusion test or,
    for the file itself, the extension test. *)
Lemma chains_under_names (n : node) :
  forall c, In c (chains_under n) ->
    Forall not_excluded (fst c)
    /\ exists rest, fst c = node_name n :: rest.
Proof.
  induction n as [nm d | nm | nm l IH] using node_induction; intros c Hc.
  - cbn [chains_under] in Hc.
    destruct (is_code_file nm) eqn:E; [| contradiction].
    destruct Hc as [<-|[]]. cbn. split.
    + constructor; [apply code_file_not_excluded, E | constructor].
    + exists []. reflexivity.
  - contradiction.
  - cbn [chains_under] in Hc.
    destruct (mem nm EXCLUDE_DIRS) eqn:E; cbn [negb] in Hc; [contradiction |].
    apply in_map_iff in Hc as [c' [<- Hc']].
    apply in_flat_map in Hc' as [n' [Hn' Hc']].
    rewrite Forall_forall in IH.
    destruct (IH n' Hn' c' Hc') as [Hall _]. cbn. split.
    + constructor; [exact E | exact Hall].
    + exists (fst c'). reflexivity.
Qed.

Lemma dir_chains_under_names (n : node) :
  forall c, In c (dir_chains_under n) ->
    Forall not_excluded c /\ exists rest, c = node_name n :: rest.
Proof.
  induction n as [nm d | nm | nm l IH] using node_induction; intros c Hc.
  - contradiction.
  - cbn [dir_chains_under] in Hc.
    destruct (mem nm EXCLUDE_DIRS) eqn:E; cbn [negb] in Hc;
      [contradiction |].
    destruct Hc as [<-|[]]. split.
    + constructor; [exact E | constructor].
    + exists []. reflexivity.
  - cbn [dir_chains_under] in Hc.
    destruct (mem nm EXCLUDE_DIRS) eqn:E; cbn [negb] in Hc; [contradiction |].
    destruct Hc as [<-|Hc].
    + split; [constructor; [exact E | constructor] | exists []; reflexivity].
    + apply in_map_iff in Hc as [c' [<- Hc']].
      apply in_flat_map in Hc' as [n' [Hn' Hc']].
      rewrite Forall_forall in IH.
      destruct (IH n' Hn' c' Hc') as [Hall _]. split.
      * constructor; [exact E | exact Hall].
      * exists c'. reflexivity.
Qed.

Lemma wf_node_name (n : node) :
  wf_node n = true -> valid_name (node_name n) = true.
Proof.
  destruct n as [nm d | nm [l|]]; cbn; intros H.
  - exact H.
  - apply andb_prop in H as [H _]. apply andb_prop in H as [H _]. exact H.
  - exact H.
Qed.

Lemma chains_under_valid (n : node) :
  wf_node n = true ->
  forall c, In c (chains_under n) ->
    Forall (fun nm => valid_name nm = true) (fst c).
Proof.
  induction n as [nm d | nm | nm l IH] using node_induction;
    intros Hwf c Hc.
  - cbn [chains_under] in Hc.
    destruct (is_code_file nm); [| contradiction].
    destruct Hc as [<-|[]]. cbn. constructor; [exact Hwf | constructor].
  - contradiction.
  - cbn [chains_under] in Hc.
    destruct (negb (mem nm EXCLUDE_DIRS)); [| contradiction].
    apply in_map_iff in Hc as [c' [<- Hc']].
    apply in_flat_map in Hc' as [n' [Hn' Hc']].
    pose proof (wf_node_name _ Hwf) as Hnm. cbn in Hnm.
    cbn in Hwf. apply andb_prop in Hwf as [Hwf _].
    apply andb_prop in Hwf as [_ Hall].
    rewrite forallb_forall in Hall. rewrite Forall_forall in IH.
    cbn. constructor; [exact Hnm |].
    apply (IH n' Hn' (Hall n' Hn') c' Hc').
Qed.

Lemma dir_chains_under_valid (n : node) :
  wf_node n = true ->
  forall c, In c (dir_chains_under n) ->
    Forall (fun nm => valid_name nm = true) c.
Proof.
  induction n as [nm d | nm | nm l IH] using node_induction;
    intros Hwf c Hc.
  - contradiction.
  - cbn [dir_chains_under] in Hc.
    destruct (negb (mem nm EXCLUDE_DIRS)); [| contradiction].
    destruct Hc as [<-|[]]. constructor; [exact Hwf | constructor].
  - pose proof (wf_node_name _ Hwf) as Hnm. cbn in Hnm.
    cbn [dir_chains_under] in Hc.
    destruct (negb (mem nm EXCLUDE_DIRS)); [| contradiction].
    destruct Hc as [<-|Hc]; [constructor; [exact Hnm | constructor] |].
    apply in_map_iff in Hc as [c' [<- Hc']].
    apply in_flat_map in Hc' as [n' [Hn' Hc']].
    cbn in Hwf. apply andb_prop in Hwf as [Hwf _].
    apply andb_prop in Hwf as [_ Hall].
    rewrite forallb_forall in Hall. rewrite Forall_forall in IH.
    constructor; [exact Hnm |].
    apply (IH n' Hn' (Hall n' Hn') c' Hc').
Qed.

Lemma NoDup_map_inj_on {A B} (f : A -> B) (l : list A) :
  (forall x y, In x l -> In y l -> f x = f y -> x = y) ->
  NoDup l -> NoDup (map f l).
Proof.
  intros Hinj Hnd. induction Hnd as [|x l Hx Hnd IH]; cbn.
  - constructor.
  - constructor.
    + intros Hin. apply in_map_iff in Hin as [y [E Hy]].
      apply Hx. rewrite (Hinj x y); [exact Hy | left; reflexivity
                                    | right; exact Hy | symmetry; exact E].
    + apply IH. intros a b Ha Hb. apply Hinj; right; assumption.
Qed.

Lemma distinct_NoDup (l : list str) : distinct l = true -> NoDup l.
Proof.
  induction l as [|x l IH]; cbn; intros H.
  - constructor.
  - apply andb_prop in H as [Hx Hl]. constructor.
    + apply mem_not_In. destruct (mem x l); [discriminate | reflexivity].
    + apply IH, Hl.
Qed.

(** Files reached through different entries of one directory have different
    chains of names: the chains start with the names of the entries. *)
Lemma chains_of_entries_NoDup (l : list node) :
  Forall (fun n => NoDup (map fst (chains_under n))) l ->
  NoDup (map node_name l) ->
  NoDup (map fst (flat_map chains_under l)).
Proof.
  induction l as [|a l IH]; intros Hall Hnames.
  - constructor.
  - cbn [flat_map]. rewrite map_app.
    inversion Hall as [|? ? Ha Hl]; subst.
    cbn in Hnames. inversion Hnames as [|? ? Hnotin Hnd]; subst.
    apply NoDup_app.
    + exact Ha.
    + apply IH; assumption.
    + intros x Hx Hx'. apply in_map_iff in Hx as [c [<- Hc]].
      apply in_map_iff in Hx' as [c' [E Hc']].
      apply in_flat_map in Hc' as [n' [Hn' Hc']].
      destruct (chains_under_names a c Hc) as [_ [r Hr]].
      destruct (chains_under_names n' c' Hc') as [_ [r' Hr']].
      rewrite Hr, Hr' in E. injection E as E _.
      apply Hnotin. rewrite <- E. apply in_map. exact Hn'.
Qed.

Lemma chains_under_NoDup (n : node) :
  wf_node n = true -> NoDup (map fst (chains_under n)).
Proof.
  induction n as [nm d | nm | nm l IH] using node_induction; intros Hwf.
  - cbn [chains_under]. destruct (is_code_file nm); cbn.
    + constructor; [intros [] | constructor].
    + constructor.
  - constructor.
  - cbn [chains_under]. destruct (negb (mem nm EXCLUDE_DIRS));
      [| constructor].
    rewrite map_map. cbn [fst].
    rewrite <- (map_map fst (cons nm)).
    apply NoDup_map_inj_on.
    + intros x y _ _ E. injection E as E. exact E.
    + cbn in Hwf. apply andb_prop in Hwf as [Hwf Hd].
      apply andb_prop in Hwf as [_ Hall].
      rewrite forallb_forall in Hall.
      apply chains_of_entries_NoDup.
      * rewrite Forall_forall in *. intros n' Hn'.
        apply IH; [exact Hn' | apply Hall, Hn'].
      * apply distinct_NoDup, Hd.
Qed.

Lemma chains_of_NoDup (top : option (list node)) :
  wf_listing top = true -> NoDup (map fst (chains_of top)).
Proof.
  destruct top as [l|]; cbn [wf_listing chains_of]; intros Hwf.
  - apply andb_prop in Hwf as [Hall Hd].
    rewrite forallb_forall in Hall.
    apply chains_of_entries_NoDup.
    + rewrite Forall_forall. intros n' Hn'.
      apply chains_under_NoDup, Hall, Hn'.
    + apply distinct_NoDup, Hd.
  - constructor.
Qed.

Lemma chains_of_names (top : option (list node)) :
  forall c, In c (chains_of top) ->
    Forall not_excluded (fst c) /\ fst c <> [].
Proof.
  destruct top as [l|]; cbn [chains_of]; intros c Hc; [| contradiction].
  apply in_flat_map in Hc as [n [_ Hc]].
  destruct (chains_under_names n c Hc) as [Hall [r Hr]].
  split; [exact Hall | rewrite Hr; discriminate].
Qed.

Lemma chains_of_valid (top : option (list node)) :
  wf_listing top = true ->
  forall c, In c (chains_of top) ->
    Forall (fun nm => valid_name nm = true) (fst c).
Proof.
  destruct top as [l|]; cbn [wf_listing chains_of]; intros Hwf c Hc;
    [| contradiction].
  apply andb_prop in Hwf as [Hall _]. rewrite forallb_forall in Hall.
  apply in_flat_map in Hc as [n [Hn Hc]].
  apply (chains_under_valid n (Hall n Hn) c Hc).
Qed.

Lemma dir_chains_of_names (top : option (list node)) :
  forall c, In c (dir_chains_of top) -> Forall not_excluded c /\ c <> [].
Proof.
  destruct top as [l|]; cbn [dir_chains_of]; intros c Hc; [| contradiction].
  apply in_flat_map in Hc as [n [_ Hc]].
  destruct (dir_chains_under_names n c Hc) as [Hall [r Hr]].
  split; [exact Hall | rewrite Hr; discriminate].
Qed.

Lemma dir_chains_of_valid (top : option (list node)) :
  wf_listing top = true ->
  forall c, In c (dir_chains_of top) ->
    Forall (fun nm => valid_name nm = true) c.
Proof.
  destruct top as [l|]; cbn [wf_listing dir_chains_of]; intros Hwf c Hc;
    [| contradiction].
  apply andb_prop in Hwf as [Hall _]. rewrite forallb_forall in Hall.
  apply in_flat_map in Hc as [n [Hn Hc]].
  apply (dir_chains_under_valid n (Hall n Hn) c Hc).
Qed.

(** ** Paths as strings: segments, [os.path.join], [os.path.relpath] *)

Lemma split_on_nonnil (c : ascii) (s : str) : split_on c s <> [].
Proof.
  destruct s as [|x s]; cbn; [discriminate |].
  destruct (Ascii.eqb x c); [discriminate |].
  destruct (split_on c s); discriminate.
Qed.

Lemma split_on_app (c : ascii) (a b : str) :
  split_on c (a ++ c :: b) = split_on c a ++ split_on c b.
Proof.
  induction a as [|x a IH]; cbn.
  - rewrite Ascii.eqb_refl. reflexivity.
  - destruct (Ascii.eqb x c); [rewrite IH; reflexivity |].
    rewrite IH. pose proof (split_on_nonnil c a) as Hn.
    destruct (split_on c a); [contradiction | reflexivity].
Qed.

Lemma split_on_free (s : str) : sep_free s -> split_on sep s = [s].
Proof.
  unfold sep_free. induction s as [|x s IH]; cbn [existsb split_on]; intros H.
  - reflexivity.
  - apply orb_false_elim in H as [Hx Hs]. rewrite Ascii.eqb_sym, Hx.
    rewrite (IH Hs). reflexivity.
Qed.

Lemma segments_nil : segments [] = [].
Proof. reflexivity. Qed.

Lemma segments_app (a b : str) :
  segments (a ++ sep :: b) = segments a ++ segments b.
Proof. unfold segments. rewrite split_on_app, filter_app. reflexivity. Qed.

Lemma segments_sep (s : str) : segments (sep :: s) = segments s.
Proof. apply (segments_app [] s). Qed.

Lemma segments_free (s : str) : s <> [] -> sep_free s -> segments s = [s].
Proof.
  intros Hne Hf. unfold segments. rewrite split_on_free by exact Hf.
  destruct s; [contradiction | reflexivity].
Qed.

Lemma valid_name_facts (nm : str) :
  valid_name nm = true ->
  nm <> [] /\ sep_free nm /\ nm <> curdir /\ nm <> pardir.
Proof.
  unfold valid_name. intros H.
  apply andb_prop in H as [H H4]. apply andb_prop in H as [H H3].
  apply andb_prop in H as [H1 H2].
  repeat split.
  - destruct nm; [discriminate | discriminate].
  - unfold sep_free. destruct (existsb _ nm); [discriminate | reflexivity].
  - apply str_eqb_neq.
    destruct (str_eqb nm curdir); [discriminate | reflexivity].
  - apply str_eqb_neq.
    destruct (str_eqb nm pardir); [discriminate | reflexivity].
Qed.

Lemma valid_name_relative (nm : str) : valid_name nm = true -> isabs nm = false.
Proof.
  intros H. destruct (valid_name_facts nm H) as [Hne [Hf _]].
  destruct nm as [|c nm]; [reflexivity |]. cbn [isabs].
  unfold sep_free in Hf. cbn [existsb] in Hf.
  apply orb_false_elim in Hf as [Hc _].
  rewrite Ascii.eqb_sym. exact Hc.
Qed.

Lemma ends_with_sep_inv (a : str) :
  ends_with_sep a = true -> exists a', a = a' ++ [sep].
Proof.
  unfold ends_with_sep. destruct (rev a) as [|c r] eqn:E; [discriminate |].
  intros H. apply Ascii.eqb_eq in H. subst c. exists (rev r).
  rewrite <- (rev_involutive a), E. reflexivity.
Qed.

(** [os.path.join] with a relative second part appends it, with a slash in
    between where one is missing. *)
Lemma path_join_relative (a b : str) :
  isabs b = false ->
  path_join a b
  = match a with
    | [] => b
    | _ => if ends_with_sep a then a ++ b else a ++ sep :: b
    end.
Proof.
  intros Hb. unfold path_join. destruct b as [|c b].
  - destruct a; [reflexivity |].
    destruct (ends_with_sep _); [rewrite app_nil_r |]; reflexivity.
  - cbn [isabs] in Hb. rewrite Hb. reflexivity.
Qed.

Lemma segments_path_join (a b : str) :
  isabs b = false ->
  segments (path_join a b) = segments a ++ segments b.
Proof.
  intros Hb. rewrite path_join_relative by exact Hb.
  destruct a as [|x a]; [reflexivity |].
  destruct (ends_with_sep (x :: a)) eqn:E.
  - apply ends_with_sep_inv in E as [a' E]. rewrite E.
    rewrite <- app_assoc. cbn [app].
    rewrite !segments_app, segments_nil, app_nil_r. reflexivity.
  - apply segments_app.
Qed.

Lemma isabs_path_join (a b : str) :
  isabs b = false -> isabs (path_join a b) = isabs a.
Proof.
  intros Hb. rewrite path_join_relative by exact Hb.
  destruct a as [|x a]; [exact Hb |].
  destruct (ends_with_sep (x :: a)); reflexivity.
Qed.

Lemma path_join_nonnil (a b : str) : b <> [] -> path_join a b <> [].
Proof.
  intros Hb. unfold path_join. destruct b as [|c b]; [contradiction |].
  destruct (Ascii.eqb c sep); [discriminate |].
  destruct a as [|x a]; [discriminate |].
  destruct (ends_with_sep (x :: a)); discriminate.
Qed.

Lemma path_of_snoc (dir : str) (names : list str) (nm : str) :
  path_of dir (names ++ [nm]) = path_join (path_of dir names) nm.
Proof. unfold path_of. rewrite fold_left_app. reflexivity. Qed.

(** The segments of the path of an entry: those of the directory it was
    reached from, then the names on the way. *)
Lemma segments_path_of (names : list str) :
  Forall (fun nm => valid_name nm = true) names ->
  forall dir, segments (path_of dir names) = segments dir ++ names.
Proof.
  induction 1 as [|nm names Hnm Hall IH]; intros dir; cbn [path_of fold_left].
  - rewrite app_nil_r. reflexivity.
  - fold (path_of (path_join dir nm) names). rewrite IH.
    rewrite segments_path_join by (apply valid_name_relative, Hnm).
    destruct (valid_name_facts nm Hnm) as [Hne [Hf _]].
    rewrite (segments_free nm Hne Hf), <- app_assoc. reflexivity.
Qed.

Lemma isabs_path_of (names : list str) :
  Forall (fun nm => valid_name nm = true) names ->
  forall dir, isabs (path_of dir names) = isabs dir.
Proof.
  induction 1 as [|nm names Hnm Hall IH]; intros dir; cbn [path_of fold_left].
  - reflexivity.
  - fold (path_of (path_join dir nm) names). rewrite IH.
    apply isabs_path_join, valid_name_relative, Hnm.
Qed.

Lemma path_of_nonnil (names : list str) (dir : str) :
  Forall (fun nm => valid_name nm = true) names ->
  names <> [] -> path_of dir names <> [].
Proof.
  intros Hall Hne.
  destruct (exists_last Hne) as [ns [nm E]]. subst names.
  rewrite path_of_snoc. apply path_join_nonnil.
  apply Forall_app in Hall as [_ Hnm]. inversion Hnm; subst.
  apply valid_name_facts. assumption.
Qed.

Lemma norm_step_empty (k : nat) (st : list str) : norm_step k st [] = st.
Proof. reflexivity. Qed.

Lemma fold_norm_step_filter (k : nat) (l : list str) :
  forall st,
    fold_left (norm_step k) l st
    = fold_left (norm_step k) (filter nonempty l) st.
Proof.
  induction l as [|c l IH]; intros st; cbn [fold_left filter].
  - reflexivity.
  - destruct c as [|x c]; cbn [nonempty].
    + rewrite norm_step_empty. apply IH.
    + cbn [fold_left]. apply IH.
Qed.

Lemma norm_step_absolute (k : nat) (st : list str) (c : str) :
  (1 <= k)%nat -> norm_step k st c = norm_step 1 st c.
Proof.
  intros Hk. unfold norm_step.
  destruct k as [|k]; [lia |]. reflexivity.
Qed.

Lemma fold_norm_step_absolute (k : nat) (l : list str) :
  (1 <= k)%nat ->
  forall st, fold_left (norm_step k) l st = fold_left (norm_step 1) l st.
Proof.
  intros Hk. induction l as [|c l IH]; intros st; cbn [fold_left].
  - reflexivity.
  - rewrite norm_step_absolute by exact Hk. apply IH.
Qed.

Lemma split_on_sep_free (s : str) : Forall sep_free (split_on sep s).
Proof.
  unfold sep_free. induction s as [|x s IH]; cbn [split_on].
  - repeat constructor.
  - destruct (Ascii.eqb x sep) eqn:E.
    + constructor; [reflexivity | exact IH].
    + destruct (split_on sep s) as [|w ws]; [repeat constructor |].
      * cbn [existsb]. rewrite Ascii.eqb_sym, E. reflexivity.
      * inversion IH; subst. constructor; [| assumption].
        cbn [existsb]. rewrite Ascii.eqb_sym, E. assumption.
Qed.

Lemma Forall_removelast {A} (P : A -> Prop) (l : list A) :
  Forall P l -> Forall P (removelast l).
Proof.
  induction 1 as [|x l Hx Hl IH]; cbn.
  - constructor.
  - destruct l; [constructor | constructor; assumption].
Qed.

Lemma norm_step_plain (k : nat) (st : list str) (c : str) :
  Forall plain_segment st -> sep_free c ->
  Forall plain_segment (norm_step k st c).
Proof.
  intros Hst Hc. unfold norm_step.
  destruct (str_eqb c []) eqn:E; cbn [orb]; [exact Hst |].
  destruct (str_eqb c curdir); [exact Hst |].
  apply str_eqb_neq in E.
  match goal with |- context [if ?b then _ else _] => destruct b end.
  - apply Forall_app. split; [exact Hst |].
    constructor; [split; assumption | constructor].
  - destruct (nonempty st); [apply Forall_removelast |]; exact Hst.
Qed.

Lemma fold_norm_step_plain (k : nat) (l : list str) :
  Forall sep_free l ->
  forall st, Forall plain_segment st ->
             Forall plain_segment (fold_left (norm_step k) l st).
Proof.
  induction 1 as [|c l Hc Hl IH]; intros st Hst; cbn [fold_left].
  - exact Hst.
  - apply IH, norm_step_plain; assumption.
Qed.

Lemma segments_str_join (l : list str) :
  Forall plain_segment l -> segments (str_join [sep] l) = l.
Proof.
  induction 1 as [|x l [Hne Hf] Hl IH]; [reflexivity |].
  destruct l as [|y l].
  - cbn [str_join]. apply segments_free; assumption.
  - change (str_join [sep] (x :: y :: l))
      with (x ++ sep :: str_join [sep] (y :: l)).
    rewrite segments_app, IH, (segments_free x Hne Hf). reflexivity.
Qed.

Lemma segments_repeat_sep (k : nat) (s : str) :
  segments (repeat sep k ++ s) = segments s.
Proof.
  induction k as [|k IH]; [reflexivity |].
  cbn [repeat app]. rewrite segments_sep. exact IH.
Qed.

Lemma initial_slashes_absolute (p : str) :
  isabs p = true -> (1 <= initial_slashes p)%nat.
Proof.
  destruct p as [|c p]; [discriminate |]. cbn [isabs]. intros E.
  unfold initial_slashes. cbn [starts_with_seps]. rewrite E. cbn [andb].
  match goal with |- context [if ?b then _ else _] => destruct b end; lia.
Qed.

(** The segments of the normal form of an absolute path. *)
Lemma segments_normpath (p : str) :
  isabs p = true -> segments (normpath p) = normalize (segments p).
Proof.
  intros Habs. pose proof (initial_slashes_absolute p Habs) as Hk.
  destruct p as [|c p]; [discriminate |].
  unfold normpath.
  remember (initial_slashes (c :: p)) as k eqn:Ek.
  destruct k as [|k]; [lia |].
  cbn [repeat app nonempty].
  change (sep :: repeat sep k ++ ?s) with (repeat sep (S k) ++ s).
  rewrite segments_repeat_sep, segments_str_join.
  - unfold normalize, segments.
    rewrite fold_norm_step_filter. apply fold_norm_step_absolute. lia.
  - apply fold_norm_step_plain; [apply split_on_sep_free | constructor].
Qed.

Lemma segments_abspath (cwd p : str) :
  isabs cwd = true ->
  segments (abspath cwd p)
  = normalize (segments (if isabs p then p else path_join cwd p)).
Proof.
  intros Hcwd. unfold abspath. apply segments_normpath.
  destruct (isabs p) eqn:E; [exact E |].
  rewrite isabs_path_join by exact E. exact Hcwd.
Qed.

Lemma fold_norm_step_valid (names : list str) :
  Forall (fun nm => valid_name nm = true) names ->
  forall st, fold_left (norm_step 1) names st = st ++ names.
Proof.
  induction 1 as [|nm names Hnm Hall IH]; intros st; cbn [fold_left].
  - rewrite app_nil_r. reflexivity.
  - rewrite IH.
    assert (E : norm_step 1 st nm = st ++ [nm]).
    { destruct (valid_name_facts nm Hnm) as [H1 [_ [H3 H4]]].
      unfold norm_step.
      apply str_eqb_neq in H1, H3, H4. rewrite H1, H3, H4. reflexivity. }
    rewrite E, <- app_assoc. reflexivity.
Qed.

(** The absolute segments of the path of an entry reached from [root]. *)
Lemma segments_abspath_path_of (cwd root : str) (names : list str) :
  isabs cwd = true ->
  Forall (fun nm => valid_name nm = true) names ->
  segments (abspath cwd (path_of root names))
  = segments (abspath cwd root) ++ names.
Proof.
  intros Hcwd Hall. rewrite !segments_abspath by exact Hcwd.
  rewrite (isabs_path_of names Hall root).
  assert (E : segments (if isabs root then path_of root names
                        else path_join cwd (path_of root names))
              = segments (if isabs root then root else path_join cwd root)
                ++ names).
  { destruct (isabs root) eqn:Er.
    - apply segments_path_of, Hall.
    - rewrite !segments_path_join.
      + rewrite segments_path_of by exact Hall. apply app_assoc.
      + exact Er.
      + rewrite (isabs_path_of names Hall root). exact Er. }
  rewrite E. unfold normalize. rewrite fold_left_app.
  apply fold_norm_step_valid, Hall.
Qed.

Lemma common_prefix_len_app (s t : list str) :
  common_prefix_len s (s ++ t) = length s.
Proof.
  induction s as [|x s IH]; cbn.
  - destruct t; reflexivity.
  - rewrite str_eqb_refl, IH. reflexivity.
Qed.

(** The path of an entry relative to the root it was reached from: the names
    on the way, joined by slashes. *)
Lemma relpath_path_of (cwd root : str) (names : list str) :
  isabs cwd = true ->
  Forall (fun nm => valid_name nm = true) names ->
  names <> [] ->
  relpath cwd (path_of root names) root = Ok (str_join [sep] names).
Proof.
  intros Hcwd Hall Hne. unfold relpath.
  pose proof (path_of_nonnil names root Hall Hne) as Hp.
  destruct (path_of root names) as [|c p] eqn:E; [contradiction |].
  rewrite <- E. rewrite segments_abspath_path_of by assumption.
  rewrite common_prefix_len_app, Nat.sub_diag. cbn [repeat app].
  rewrite skipn_app, skipn_all, Nat.sub_diag. cbn [skipn app].
  destruct names; [contradiction | reflexivity].
Qed.

Lemma valid_names_plain (names : list str) :
  Forall (fun nm => valid_name nm = true) names -> Forall plain_segment names.
Proof.
  apply Forall_impl. intros nm H.
  destruct (valid_name_facts nm H) as [H1 [H2 _]]. split; assumption.
Qed.

Lemma str_join_valid_inj (a b : list str) :
  Forall (fun nm => valid_name nm = true) a ->
  Forall (fun nm => valid_name nm = true) b ->
  str_join [sep] a = str_join [sep] b -> a = b.
Proof.
  intros Ha Hb E.
  rewrite <- (segments_str_join a), <- (segments_str_join b), E
    by (apply valid_names_plain; assumption).
  reflexivity.
Qed.

(** ** FileDiscoverer: exclusion *)

Lemma not_excluded_names (names : list str) :
  Forall not_excluded names ->
  forall d, In d EXCLUDE_DIRS -> ~ In d names.
Proof.
  intros Hall d Hd Hin. rewrite Forall_forall in Hall.
  specialize (Hall d Hin). apply mem_not_In in Hall. contradiction.
Qed.

(** Every file the discovery returns was reached from the root by names that
    all passed the tests. *)
Lemma find_code_files_chain (root : str) (top : option (list node)) :
  forall p, In p (find_code_files_bfs root top) ->
    exists c, In c (chains_of top)
              /\ p = (path_of root (fst c), snd c).
Proof.
  intros p Hp.
  apply (Permutation_in _ (find_code_files_perm root top)) in Hp.
  unfold files_of in Hp. apply in_map_iff in Hp as [c [E Hc]].
  exists c. split; [exact Hc | symmetry; exact E].
Qed.

(** C2, as the code has it.  In a well-formed tree, the segments of every
    path the discovery returns are the segments of the root path followed by
    names of which none is in the exclusion set, and the same holds for
    every directory the traversal scans: below the root no excluded
    directory is entered, at any depth.  The segments of the root path
    itself are not tested. *)
Theorem discovery_excludes_below_root (root : str) (top : option (list node)) :
  wf_listing top = true ->
  (forall p, In p (find_code_files_bfs root top) ->
     exists names,
       names <> []
       /\ fst p = path_of root names
       /\ segments (fst p) = segments root ++ names
       /\ forall d, In d EXCLUDE_DIRS -> ~ In d names)
  /\ (forall q, In q (scanned_dirs root top) ->
        exists names,
          q = path_of root names
          /\ segments q = segments root ++ names
          /\ forall d, In d EXCLUDE_DIRS -> ~ In d names).
Proof.
  intros Hwf. split.
  - intros p Hp.
    destruct (find_code_files_chain root top p Hp) as [c [Hc ->]].
    destruct (chains_of_names top c Hc) as [Hex Hne].
    pose proof (chains_of_valid top Hwf c Hc) as Hval.
    exists (fst c). cbn [fst]. repeat split.
    + exact Hne.
    + apply segments_path_of, Hval.
    + apply not_excluded_names, Hex.
  - intros q Hq.
    apply (Permutation_in _ (traverse_scanned root top)) in Hq.
    unfold dirs_of in Hq. destruct Hq as [<-|Hq].
    + exists []. repeat split.
      * cbn. rewrite app_nil_r. reflexivity.
      * intros d _ [].
    + apply in_map_iff in Hq as [c [<- Hc]].
      destruct (dir_chains_of_names top c Hc) as [Hex _].
      pose proof (dir_chains_of_valid top Hwf c Hc) as Hval.
      exists c. repeat split.
      * apply segments_path_of, Hval.
      * apply not_excluded_names, Hex.
Qed.

Lemma discovery_excludes_below_root_witness :
  wf_listing sample_tree = true
  /\ (forall p, In p (find_code_files_bfs (lit "/work/repo") sample_tree) ->
        exists names,
          names <> []
          /\ fst p = path_of (lit "/work/repo") names
          /\ segments (fst p) = segments (lit "/work/repo") ++ names
          /\ forall d, In d EXCLUDE_DIRS -> ~ In d names)
  /\ (forall q, In q (scanned_dirs (lit "/work/repo") sample_tree) ->
        exists names,
          q = path_of (lit "/work/repo") names
          /\ segments q = segments (lit "/work/repo") ++ names
          /\ forall d, In d EXCLUDE_DIRS -> ~ In d names).
Proof.
  split; [reflexivity |].
  apply (discovery_excludes_below_root (lit "/work/repo") sample_tree).
  reflexivity.
Defined.

(** C2 as stated fails: the segments of the root path are never compared
    with the exclusion set.  With the checkout at [/work/dist], a returned
    path has the excluded name [dist] as a segment. *)
Lemma exclusion_counterexample :
  wf_listing sample_tree = true
  /\ In (lit "dist") EXCLUDE_DIRS
  /\ exists p, In p (find_code_files_bfs (lit "/work/dist") sample_tree)
               /\ In (lit "dist") (segments (fst p)).
Proof.
  split; [reflexivity |]. split.
  - vm_compute. tauto.
  - exists (lit "/work/dist/main.js", mkFile 50 (Some [])).
    split; vm_compute; tauto.
Qed.

(** ** Acquisition: the unused destination path *)

Lemma lit_inj (a b : string) : lit a = lit b -> a = b.
Proof.
  unfold lit. intros E.
  rewrite <- (string_of_list_ascii_of_string a),
          <- (string_of_list_ascii_of_string b), E.
  reflexivity.
Qed.

Lemma to_int_not_nil (n : Z) :
  Z.to_int n <> Decimal.Pos Decimal.Nil
  /\ Z.to_int n <> Decimal.Neg Decimal.Nil.
Proof.
  destruct n as [|q|q]; cbn; split; try discriminate;
    intros E; injection E as E;
    exact (DecimalPos.Unsigned.to_uint_nonnil q E).
Qed.

(** Different numbers have different decimal texts. *)
Lemma str_of_int_inj (a b : Z) : str_of_int a = str_of_int b -> a = b.
Proof.
  unfold str_of_int. intros E. apply lit_inj in E.
  apply DecimalZ.to_int_inj.
  destruct (to_int_not_nil a) as [Ha1 Ha2].
  destruct (to_int_not_nil b) as [Hb1 Hb2].
  pose proof (DecimalString.NilZero.isi (Z.to_int a) Ha1 Ha2) as Ia.
  pose proof (DecimalString.NilZero.isi (Z.to_int b) Hb1 Hb2) as Ib.
  rewrite E in Ia. rewrite Ia in Ib. injection Ib as Ib. exact Ib.
Qed.

Lemma path_join_inj_tail (a b x x' : str) :
  b <> [] -> path_join a (b ++ x) = path_join a (b ++ x') -> x = x'.
Proof.
  intros Hb E. destruct b as [|c b]; [contradiction |].
  cbn [app] in E. unfold path_join in E.
  destruct (Ascii.eqb c sep).
  - injection E as E. apply app_inv_head in E. exact E.
  - destruct a as [|y a].
    + injection E as E. apply app_inv_head in E. exact E.
    + destruct (ends_with_sep (y :: a)); apply app_inv_head in E;
        injection E as E; apply app_inv_head in E; exact E.
Qed.

(** Different counters give different candidate paths. *)
Lemma numbered_inj (p : posix_path) (j k : Z) :
  path_str (numbered p j) = path_str (numbered p k) -> j = k.
Proof.
  unfold path_str, numbered. cbn [parent name]. intros E.
  apply str_of_int_inj.
  rewrite !app_assoc in E.
  apply (path_join_inj_tail (parent p) (name p ++ lit "_")) in E;
    [exact E |].
  destruct (name p); discriminate.
Qed.

Lemma unique_loop_some (existing : list str) (p : posix_path) (fuel : nat) :
  forall counter r,
    unique_loop existing p fuel counter = Some r ->
    exists k,
      counter <= k < counter + Z.of_nat fuel
      /\ r = path_str (numbered p k)
      /\ path_exists existing (numbered p k) = false
      /\ forall j, counter <= j < k ->
                   path_exists existing (numbered p j) = true.
Proof.
  induction fuel as [|fuel IH]; intros counter r H; [discriminate |].
  cbn [unique_loop] in H.
  destruct (path_exists existing (numbered p counter)) eqn:E; cbn [negb] in H.
  - destruct (IH (counter + 1) r H) as [k [Hk [Hr [Hfree Hbelow]]]].
    exists k. repeat split; try assumption; try lia.
    intros j Hj. destruct (Z.eq_dec j counter) as [->|Hne];
      [exact E | apply Hbelow; lia].
  - injection H as <-. exists counter. repeat split; try assumption; lia.
Qed.

Lemma unique_loop_none (existing : list str) (p : posix_path) (fuel : nat) :
  forall counter,
    unique_loop existing p fuel counter = None ->
    forall j, counter <= j < counter + Z.of_nat fuel ->
              path_exists existing (numbered p j) = true.
Proof.
  induction fuel as [|fuel IH]; intros counter H j Hj; [lia |].
  cbn [unique_loop] in H.
  destruct (path_exists existing (numbered p counter)) eqn:E; cbn [negb] in H;
    [| discriminate].
  destruct (Z.eq_dec j counter) as [->|Hne]; [exact E |].
  apply (IH (counter + 1) H). lia.
Qed.

(** More candidates than existing paths cannot all exist. *)
Lemma candidates_not_all_exist (existing : list str) (p : posix_path)
    (fuel : nat) :
  (length existing < fuel)%nat ->
  ~ (forall j, 1 <= j < 1 + Z.of_nat fuel ->
               path_exists existing (numbered p j) = true).
Proof.
  intros Hlen Hall.
  pose (cands := map (fun i => path_str (numbered p (Z.of_nat i)))
                     (seq 1 fuel)).
  assert (Hnd : NoDup cands).
  { apply NoDup_map_inj_on; [| apply seq_NoDup].
    intros x y _ _ E. apply numbered_inj in E. lia. }
  assert (Hincl : incl cands existing).
  { intros c Hc. apply in_map_iff in Hc as [i [<- Hi]].
    apply in_seq in Hi. apply mem_In. apply (Hall (Z.of_nat i)). lia. }
  pose proof (NoDup_incl_length Hnd Hincl) as Hle.
  unfold cands in Hle. rewrite length_map, length_seq in Hle. lia.
Qed.

(** C9.  With more rounds than there are existing paths the loop of
    [get_unique_repo_path] finds a path, whatever the bound: the destination
    [P] itself if it does not exist, otherwise [P_k] for the smallest
    [k >= 1] such that [P_k] does not exist.  The path returned does not
    exist, so nothing that exists is written over. *)
Theorem get_unique_repo_path_spec (existing : list str) (p : posix_path)
    (fuel : nat) :
  (length existing < fuel)%nat ->
  exists r,
    get_unique_repo_path existing p fuel = Some r
    /\ mem r existing = false
    /\ (path_exists existing p = false -> r = path_str p)
    /\ (path_exists existing p = true ->
        r <> path_str p
        /\ exists k,
             1 <= k
             /\ r = path_str (numbered p k)
             /\ forall j, 1 <= j < k ->
                          path_exists existing (numbered p j) = true).
Proof.
  intros Hfuel. unfold get_unique_repo_path.
  destruct (path_exists existing p) eqn:E; cbn [negb].
  - destruct (unique_loop existing p fuel 1) as [r|] eqn:L.
    + destruct (unique_loop_some existing p fuel 1 r L)
        as [k [Hk [Hr [Hfree Hbelow]]]].
      exists r. repeat split.
      * subst r. exact Hfree.
      * discriminate.
      * intros Heq. subst r. unfold path_exists in E, Hfree.
        rewrite Heq in Hfree. congruence.
      * exists k. repeat split; try assumption; lia.
    + exfalso. apply (candidates_not_all_exist existing p fuel Hfuel).
      apply (unique_loop_none existing p fuel 1 L).
  - exists (path_str p). repeat split.
    + exact E.
    + discriminate.
    + discriminate.
Qed.

Lemma get_unique_repo_path_spec_witness :
  let existing := [lit "/tmp/repo"; lit "/tmp/repo_1"; lit "/tmp/repo_3"] in
  let p := mkPath (lit "/tmp") (lit "repo") in
  (length existing < 4)%nat
  /\ exists r,
       get_unique_repo_path existing p 4 = Some r
       /\ mem r existing = false
       /\ (path_exists existing p = false -> r = path_str p)
       /\ (path_exists existing p = true ->
           r <> path_str p
           /\ exists k,
                1 <= k
                /\ r = path_str (numbered p k)
                /\ forall j, 1 <= j < k ->
                             path_exists existing (numbered p j) = true).
Proof.
  cbv zeta. split; [cbn; lia |].
  apply (get_unique_repo_path_spec
           [lit "/tmp/repo"; lit "/tmp/repo_1"; lit "/tmp/repo_3"]
           (mkPath (lit "/tmp") (lit "repo")) 4).
  cbn. lia.
Defined.

(** ** SummarizationClient *)

Lemma read_lines_spec (lines : list line) :
  forall output,
    read_lines lines output
    = match first_error lines with
      | Some e => Raise e
      | None => Ok (output ++ concat (fragments lines))
      end.
Proof.
  induction lines as [|l lines IH]; intros output.
  - cbn. rewrite app_nil_r. reflexivity.
  - destruct l as [|e|[|s|e]]; cbn [read_lines first_error fragments].
    + apply IH.
    + reflexivity.
    + apply IH.
    + rewrite IH. destruct (first_error lines); [reflexivity |].
      cbn [concat]. rewrite app_assoc. reflexivity.
    + reflexivity.
Qed.

(** C4, as the code has it.  When all lines of a stream can be processed and
    the stream ends normally, [ollama_generate] returns the text fragments
    concatenated in arrival order, with the white space at both ends
    stripped.  When a line cannot be processed or the stream ends abnormally,
    it returns the error marker with the cause, and the text accumulated so
    far is dropped; so it does when the request or its status fails. *)
Theorem generate_text_stream (lines : list line) (broken : option str) :
  generate_text (Streamed lines broken)
  = match first_error lines, broken with
    | Some e, _ => error_marker e
    | None, Some e => error_marker e
    | None, None => strip (concat (fragments lines))
    end.
Proof.
  unfold generate_text, try_generate. rewrite read_lines_spec.
  destruct (first_error lines); [reflexivity |].
  destruct broken; reflexivity.
Qed.

(** C4 as stated fails: a stream that breaks after a fragment has arrived
    gives the error marker, not the text accumulated before the failure. *)
Lemma partial_stream_counterexample :
  let lines := [Object (Text (lit "The module parses"))] in
  let be : backend :=
    fun _ _ => Streamed lines (Some (lit "Connection broken")) in
  read_lines lines [] = Ok (lit "The module parses")
  /\ fst (ollama_generate be (lit "prompt") (lit "gemma:2b") [])
     = error_marker (lit "Connection broken")
  /\ fst (ollama_generate be (lit "prompt") (lit "gemma:2b") [])
     <> lit "The module parses".
Proof.
  cbv zeta. repeat split; vm_compute; congruence.
Qed.

(** ** ChunkAggregator *)

Lemma summarize_chunks_spec (be : backend) (file_path model : str)
    (blocks : list str) :
  forall sums calls,
    exists new_sums new_calls,
      summarize_chunks be blocks file_path model sums calls
      = (sums ++ new_sums, calls ++ new_calls)
      /\ length new_sums = length blocks
      /\ map req_prompt new_calls = map (chunk_prompt file_path) blocks
      /\ (always_failing be -> Forall degraded new_sums).
Proof.
  induction blocks as [|chunk blocks IH]; intros sums calls.
  - exists [], []. cbn. rewrite !app_nil_r. repeat split. constructor.
  - cbn [summarize_chunks]. unfold ollama_generate at 1 2. cbn [fst snd].
    set (req := mkRequest model (chunk_prompt file_path chunk)).
    destruct (IH (sums ++ [generate_text (be calls req)]) (calls ++ [req]))
      as [ns [nc [E [Hlen [Hprompts Hdeg]]]]].
    exists (generate_text (be calls req) :: ns), (req :: nc).
    rewrite E, <- !app_assoc. cbn [app length map]. repeat split.
    + rewrite Hlen. reflexivity.
    + rewrite Hprompts. reflexivity.
    + intros Hbe. constructor; [| apply Hdeg, Hbe].
      destruct (Hbe calls req) as [e He]. exists e.
      unfold generate_text. rewrite He. reflexivity.
Qed.

(** The two phases: one call per chunk, in order, then the combine call,
    whatever the calls return. *)
Lemma aggregator_calls (be : backend) (file_path model : str)
    (blocks : list str) (calls : list request) :
  exists sums new_calls,
    length sums = length blocks
    /\ snd (ollama_summarize_text_blocks be blocks file_path model calls)
       = calls ++ new_calls
    /\ map req_prompt new_calls
       = map (chunk_prompt file_path) blocks
         ++ [combined_prompt file_path sums]
    /\ (always_failing be ->
        Forall degraded sums
        /\ degraded
             (fst (ollama_summarize_text_blocks be blocks file_path model
                     calls))).
Proof.
  unfold ollama_summarize_text_blocks.
  destruct (summarize_chunks_spec be file_path model blocks [] calls)
    as [ns [nc [E [Hlen [Hprompts Hdeg]]]]].
  rewrite E. cbn [fst snd app]. unfold ollama_generate. cbn [fst snd].
  exists ns, (nc ++ [mkRequest model (combined_prompt file_path ns)]).
  repeat split.
  - exact Hlen.
  - rewrite app_assoc. reflexivity.
  - rewrite map_app, Hprompts. reflexivity.
  - apply Hdeg, H.
  - destruct (H (calls ++ nc) (mkRequest model (combined_prompt file_path ns)))
      as [e He].
    exists e. unfold generate_text. rewrite He. reflexivity.
Qed.

(** ** PipelineDriver *)

Lemma lstrip_spaces (t : str) : forallb isspace t = true -> lstrip t = [].
Proof.
  induction t as [|c t IH]; cbn [forallb lstrip]; intros H.
  - reflexivity.
  - apply andb_prop in H as [Hc Ht]. rewrite Hc. apply IH, Ht.
Qed.

Lemma strip_spaces (t : str) : forallb isspace t = true -> strip t = [].
Proof.
  intros H. unfold strip. rewrite lstrip_spaces by exact H. reflexivity.
Qed.

Lemma blank_unreadable (p : str) (d : file_data) :
  f_text d = None \/ f_text d = Some [] -> blank (p, d) = true.
Proof.
  unfold blank, read_file. cbn [snd]. intros [-> | ->]; reflexivity.
Qed.

Lemma blank_spaces (p : str) (d : file_data) (t : str) :
  f_text d = Some t -> forallb isspace t = true -> blank (p, d) = true.
Proof.
  unfold blank, read_file. cbn [snd]. intros -> H.
  rewrite strip_spaces by exact H. reflexivity.
Qed.

(** Content that is not blank is cut into at least one chunk. *)
Lemma chunk_text_nonblank (f : fpath) :
  blank f = false ->
  exists blocks,
    chunk_text (read_file f) CHUNK_CHAR_SIZE = Ok blocks /\ blocks <> [].
Proof.
  intros Hb.
  destruct (chunk_text_concat (read_file f) CHUNK_CHAR_SIZE)
    as [blocks [E Hc]]; [unfold CHUNK_CHAR_SIZE; lia |].
  exists blocks. split; [exact E |].
  intros ->. cbn in Hc. unfold blank in Hb. rewrite <- Hc in Hb.
  discriminate.
Qed.

Section Driver.
Variables (be : backend) (cwd root model : str).

(** One round of the loop of [main]: the sentinel and no call for blank
    content, otherwise the chunks and the aggregator. *)
Lemma summarize_file_spec (st : run_state) (f : fpath) (k : str) :
  relpath cwd (fst f) root = Ok k ->
  exists v calls',
    summarize_file be cwd root model st f = Ok (dict_set (fst st) k v, calls')
    /\ (blank f = true -> v = EMPTY_MARKER /\ calls' = snd st)
    /\ (blank f = false ->
        exists blocks,
          chunk_text (read_file f) CHUNK_CHAR_SIZE = Ok blocks
          /\ blocks <> []
          /\ (v, calls')
             = ollama_summarize_text_blocks be blocks k model (snd st)).
Proof.
  intros Hk. unfold summarize_file. rewrite Hk. cbn [bind].
  fold (blank f). destruct (blank f) eqn:Hb.
  - exists EMPTY_MARKER, (snd st). repeat split; discriminate.
  - destruct (chunk_text_nonblank f Hb) as [blocks [E Hne]].
    rewrite E. cbn [bind].
    exists (fst (ollama_summarize_text_blocks be blocks k model (snd st))),
           (snd (ollama_summarize_text_blocks be blocks k model (snd st))).
    repeat split; try discriminate.
    intros _. exists blocks. split; [reflexivity |]. split; [exact Hne |].
    apply surjective_pairing.
Qed.

Lemma summarize_files_app (before after : list fpath) (st : run_state) :
  summarize_files be cwd root model (before ++ after) st
  = (st1 <- summarize_files be cwd root model before st ;;
     summarize_files be cwd root model after st1).
Proof.
  revert st. induction before as [|f before IH]; intros st; cbn.
  - reflexivity.
  - destruct (summarize_file be cwd root model st f); cbn; [apply IH |].
    reflexivity.
Qed.

Lemma dict_keys_set_new (d : dict) (k v : str) :
  ~ In k (dict_keys d) -> dict_keys (dict_set d k v) = dict_keys d ++ [k].
Proof.
  unfold dict_keys. induction d as [|[k' v'] d IH]; cbn; intros H.
  - reflexivity.
  - destruct (str_eqb k k') eqn:E.
    + apply str_eqb_eq in E. subst. exfalso. apply H. left. reflexivity.
    + cbn. rewrite IH; [reflexivity |]. intros Hin. apply H. right. exact Hin.
Qed.

Lemma dict_get_set_same (d : dict) (k v : str) :
  dict_get (dict_set d k v) k = Some v.
Proof.
  induction d as [|[k' v'] d IH]; cbn.
  - rewrite str_eqb_refl. reflexivity.
  - destruct (str_eqb k k') eqn:E; cbn; rewrite E; [reflexivity | exact IH].
Qed.

Lemma dict_get_set_other (d : dict) (k k' v : str) :
  k <> k' -> dict_get (dict_set d k v) k' = dict_get d k'.
Proof.
  intros Hne. induction d as [|[k0 v0] d IH]; cbn.
  - apply str_eqb_neq in Hne.
    destruct (str_eqb k' k) eqn:E; [| reflexivity].
    apply str_eqb_eq in E. apply str_eqb_neq in Hne. congruence.
  - destruct (str_eqb k k0) eqn:E; cbn.
    + apply str_eqb_eq in E. subst k0.
      destruct (str_eqb k' k) eqn:E'; [| reflexivity].
      apply str_eqb_eq in E'. congruence.
    + rewrite IH. reflexivity.
Qed.

(** The loop over files whose relative paths are all different: it does not
    raise, appends their keys in order, and leaves other entries alone. *)
Lemma summarize_files_spec (files : list fpath) (keys : list str) :
  Forall2 (fun f k => relpath cwd (fst f) root = Ok k) files keys ->
  forall st,
    NoDup (dict_keys (fst st) ++ keys) ->
    exists st',
      summarize_files be cwd root model files st = Ok st'
      /\ dict_keys (fst st') = dict_keys (fst st) ++ keys
      /\ forall k, ~ In k keys -> dict_get (fst st') k = dict_get (fst st) k.
Proof.
  induction 1 as [|f k files keys Hk Hrest IH]; intros st Hnd.
  - exists st. cbn. rewrite app_nil_r. repeat split.
  - destruct (summarize_file_spec st f k Hk) as [v [calls' [E _]]].
    cbn [summarize_files]. rewrite E. cbn [bind].
    assert (Hnew : ~ In k (dict_keys (fst st))).
    { apply NoDup_remove_2 in Hnd. intros Hin. apply Hnd.
      apply in_or_app. left. exact Hin. }
    destruct (IH (dict_set (fst st) k v, calls')) as [st' [E' [Hkeys Hget]]].
    { cbn [fst]. rewrite dict_keys_set_new by exact Hnew.
      rewrite <- app_assoc. exact Hnd. }
    exists st'. cbn [fst] in *. repeat split.
    + exact E'.
    + rewrite Hkeys, dict_keys_set_new by exact Hnew.
      rewrite <- app_assoc. reflexivity.
    + intros k' Hk'. rewrite Hget by (intros Hin; apply Hk'; right; exact Hin).
      apply dict_get_set_other. intros ->. apply Hk'. left. reflexivity.
Qed.
End Driver.

Lemma Forall2_map_self {A B} (R : A -> B -> Prop) (h : A -> B) (l : list A) :
  (forall x, In x l -> R x (h x)) -> Forall2 R l (map h l).
Proof.
  induction l as [|x l IH]; intros H; cbn.
  - constructor.
  - constructor; [apply H; left; reflexivity |].
    apply IH. intros y Hy. apply H. right. exact Hy.
Qed.

Lemma app_eq_same_length {A} (a c b d : list A) :
  length a = length c -> a ++ b = c ++ d -> a = c /\ b = d.
Proof.
  revert c. induction a as [|x a IH]; intros [|y c] Hlen E;
    try discriminate.
  - split; [reflexivity | exact E].
  - injection E as -> E. injection Hlen as Hlen.
    destruct (IH c Hlen E) as [-> ->]. split; reflexivity.
Qed.

Section Keys.
Variables (cwd root : str) (top : option (list node)).
Hypothesis Hwf : wf_listing top = true.
Hypothesis Hcwd : isabs cwd = true.

(** The relative path of a discovered file: the names from the root to it,
    joined by slashes. *)
Lemma discovered_relpath (f : fpath) :
  In f (find_code_files_bfs root top) ->
  exists c,
    In c (chains_of top)
    /\ f = (path_of root (fst c), snd c)
    /\ relpath cwd (fst f) root = Ok (str_join [sep] (fst c)).
Proof.
  intros Hf. destruct (find_code_files_chain root top f Hf) as [c [Hc ->]].
  exists c. split; [exact Hc |]. split; [reflexivity |].
  cbn [fst]. apply relpath_path_of.
  - exact Hcwd.
  - apply (chains_of_valid top Hwf c Hc).
  - apply (chains_of_names top c Hc).
Qed.

Lemma discovered_keys :
  Forall2 (fun f k => relpath cwd (fst f) root = Ok k)
          (find_code_files_bfs root top)
          (map (rel_key cwd root) (find_code_files_bfs root top)).
Proof.
  apply Forall2_map_self. intros f Hf.
  destruct (discovered_relpath f Hf) as [c [_ [_ E]]].
  unfold rel_key. rewrite E. reflexivity.
Qed.

(** Different discovered files have different relative paths. *)
Lemma discovered_keys_NoDup :
  NoDup (map (rel_key cwd root) (find_code_files_bfs root top)).
Proof.
  apply (Permutation_NoDup
           (l := map (rel_key cwd root) (files_of root top))).
  { apply Permutation_map. symmetry. apply find_code_files_perm. }
  unfold files_of. rewrite map_map.
  rewrite (map_ext_in _ (fun c => str_join [sep] (fst c))).
  - rewrite <- (map_map fst (str_join [sep])).
    apply NoDup_map_inj_on; [| apply chains_of_NoDup, Hwf].
    intros a b Ha Hb E.
    apply in_map_iff in Ha as [ca [<- Ha]].
    apply in_map_iff in Hb as [cb [<- Hb]].
    apply str_join_valid_inj; [| | exact E].
    + apply (chains_of_valid top Hwf ca Ha).
    + apply (chains_of_valid top Hwf cb Hb).
  - intros c Hc. unfold rel_key. cbn [fst].
    rewrite relpath_path_of; [reflexivity | exact Hcwd | |].
    + apply (chains_of_valid top Hwf c Hc).
    + apply (chains_of_names top c Hc).
Qed.
End Keys.

Section Run.
Variables (be : backend) (cwd root : str) (top : option (list node))
          (model : str).
Hypothesis Hwf : wf_listing top = true.
Hypothesis Hcwd : isabs cwd = true.

(** [main] does not raise: it stops early when nothing was discovered, and
    otherwise hands [write_docx] one summary per discovered file, in the
    order of the list. *)
Lemma main_run :
  (find_code_files_bfs root top = []
   /\ main be cwd root top model = Ok NoCodeFiles)
  \/ exists d calls,
       main be cwd root top model = Ok (Documented d calls)
       /\ summarize_files be cwd root model (find_code_files_bfs root top)
            ([], [])
          = Ok (d, calls)
       /\ dict_keys d
          = map (rel_key cwd root) (find_code_files_bfs root top).
Proof.
  unfold main.
  destruct (find_code_files_bfs root top) as [|f files] eqn:E.
  - left. split; reflexivity.
  - right. cbn [nonempty negb]. rewrite <- E.
    destruct (summarize_files_spec be cwd root model
                (find_code_files_bfs root top)
                (map (rel_key cwd root) (find_code_files_bfs root top))
                (discovered_keys cwd root top Hwf Hcwd) ([], []))
      as [[d calls] [Hrun [Hkeys _]]].
    { cbn [fst dict_keys map app].
      apply (discovered_keys_NoDup cwd root top Hwf Hcwd). }
    exists d, calls. rewrite Hrun. cbn [bind fst snd].
    repeat split. exact Hkeys.
Qed.

(** The round of the loop for one discovered file, and what the final map
    holds for it. *)
Lemma run_at (before after : list fpath) (f : fpath) :
  find_code_files_bfs root top = before ++ f :: after ->
  exists k st v calls1 d calls,
    relpath cwd (fst f) root = Ok k
    /\ summarize_files be cwd root model before ([], []) = Ok st
    /\ summarize_file be cwd root model st f
       = Ok (dict_set (fst st) k v, calls1)
    /\ (blank f = true -> v = EMPTY_MARKER /\ calls1 = snd st)
    /\ (blank f = false ->
        exists blocks,
          chunk_text (read_file f) CHUNK_CHAR_SIZE = Ok blocks
          /\ blocks <> []
          /\ (v, calls1)
             = ollama_summarize_text_blocks be blocks k model (snd st))
    /\ main be cwd root top model = Ok (Documented d calls)
    /\ dict_get d k = Some v.
Proof.
  intros Efiles.
  pose proof (discovered_keys cwd root top Hwf Hcwd) as Hkeys.
  pose proof (discovered_keys_NoDup cwd root top Hwf Hcwd) as Hnd.
  rewrite Efiles in Hkeys, Hnd.
  rewrite map_app in Hkeys, Hnd. cbn [map] in Hkeys, Hnd.
  set (kb := map (rel_key cwd root) before) in *.
  set (ka := map (rel_key cwd root) after) in *.
  set (k := rel_key cwd root f) in *.
  apply Forall2_app_inv_l in Hkeys
    as [kb' [ka' [Hb [Ha Esplit]]]].
  inversion Ha as [|? k' ? ka'' Hk Ha' ]; subst.
  assert (Elen : length kb' = length kb).
  { apply Forall2_length in Hb. unfold kb. rewrite length_map. lia. }
  apply app_eq_same_length in Esplit; [| symmetry; exact Elen].
  destruct Esplit as [<- Etail]. injection Etail as <- <-.
  destruct (summarize_files_spec be cwd root model before kb Hb ([], []))
    as [st [Hst [Kst _]]].
  { cbn [fst dict_keys map app]. apply NoDup_app_remove_r in Hnd. exact Hnd. }
  cbn [fst dict_keys map app] in Kst.
  destruct (summarize_file_spec be cwd root model st f k Hk)
    as [v [calls1 [Hf [Hblank Hfull]]]].
  destruct (summarize_files_spec be cwd root model after ka Ha'
              (dict_set (fst st) k v, calls1))
    as [[d calls] [Hrest [_ Hget]]].
  { cbn [fst]. rewrite dict_keys_set_new.
    - rewrite Kst, <- app_assoc. exact Hnd.
    - rewrite Kst. apply NoDup_remove_2 in Hnd. intros Hin. apply Hnd.
      apply in_or_app. left. exact Hin. }
  exists k, st, v, calls1, d, calls. repeat split; try assumption.
  - apply Hblank. assumption.
  - apply Hblank. assumption.
  - unfold main. rewrite Efiles.
    assert (Hne : nonempty (before ++ f :: after) = true)
      by (destruct before; reflexivity).
    rewrite Hne. cbn [negb].
    rewrite summarize_files_app, Hst. cbn [bind summarize_files].
    rewrite Hf. cbn [bind]. rewrite Hrest. reflexivity.
  - cbn [fst] in Hget. rewrite Hget.
    + apply dict_get_set_same.
    + apply NoDup_remove_2 in Hnd. intros Hin. apply Hnd.
      apply in_or_app. right. exact Hin.
Qed.
End Run.

Example sample_discovery :
  find_code_files_bfs sample_root sample_tree = [blob_rs; main_js; a_py; b_py].
Proof. reflexivity. Qed.

(** C3, as the code has it.  Called with no chunks, the aggregator makes no
    per-chunk call but still runs the combine phase: it makes one call, with
    a prompt that lists no chunk summary, and returns what that call returns.
    The sentinel comes from [main], which records it without calling the
    aggregator when the content is blank, and which calls the aggregator with
    at least one chunk otherwise. *)
Theorem aggregator_empty_blocks (be : backend) (file_path model : str)
    (calls : list request) :
  ollama_summarize_text_blocks be [] file_path model calls
  = ollama_generate be (combined_prompt file_path []) model calls
  /\ snd (ollama_summarize_text_blocks be [] file_path model calls)
     = calls ++ [mkRequest model (combined_prompt file_path [])]
  /\ (forall cwd root st f k,
        relpath cwd (fst f) root = Ok k ->
        blank f = true ->
        summarize_file be cwd root model st f
        = Ok (dict_set (fst st) k EMPTY_MARKER, snd st))
  /\ (forall f,
        blank f = false ->
        exists blocks,
          chunk_text (read_file f) CHUNK_CHAR_SIZE = Ok blocks
          /\ blocks <> []).
Proof.
  repeat split.
  - intros cwd root st f k Hk Hb.
    destruct (summarize_file_spec be cwd root model st f k Hk)
      as [v [calls' [E [Hblank _]]]].
    destruct (Hblank Hb) as [-> ->]. exact E.
  - apply chunk_text_nonblank.
Qed.

(** C3 as stated fails: with an empty list of chunks the aggregator calls
    the backend once and returns its answer, not a sentinel. *)
Lemma empty_blocks_counterexample :
  let r := ollama_summarize_text_blocks
             (steady_backend (lit "Nothing to summarise."))
             [] (lit "src/a.py") sample_model [] in
  length (snd r) = 1%nat
  /\ fst r = lit "Nothing to summarise."
  /\ fst r <> EMPTY_MARKER.
Proof.
  cbv zeta. repeat split; vm_compute; congruence.
Qed.

(** C7.  In a well-formed tree, [main] either finds no code file and stops,
    or hands over a summary map whose keys are, in order, the paths of the
    discovered files relative to the root: one entry for each file of the
    list [find_code_files_bfs] returned, in the order of that list. *)
Theorem summary_map_keys (be : backend) (cwd root : str)
    (top : option (list node)) (model : str) :
  wf_listing top = true ->
  isabs cwd = true ->
  (find_code_files_bfs root top = []
   /\ main be cwd root top model = Ok NoCodeFiles)
  \/ exists d calls,
       main be cwd root top model = Ok (Documented d calls)
       /\ Forall2 (fun f k => relpath cwd (fst f) root = Ok k)
                  (find_code_files_bfs root top) (dict_keys d)
       /\ NoDup (dict_keys d)
       /\ length d = length (find_code_files_bfs root top).
Proof.
  intros Hwf Hcwd.
  destruct (main_run be cwd root top model Hwf Hcwd)
    as [Hnone | [d [calls [Hmain [_ Hkeys]]]]]; [left; exact Hnone |].
  right. exists d, calls. split; [exact Hmain |].
  rewrite Hkeys. repeat split.
  - apply discovered_keys; assumption.
  - apply discovered_keys_NoDup; assumption.
  - rewrite <- (length_map fst d). fold (dict_keys d).
    rewrite Hkeys. apply length_map.
Qed.

Lemma summary_map_keys_witness :
  wf_listing sample_tree = true
  /\ isabs sample_cwd = true
  /\ ((find_code_files_bfs sample_root sample_tree = []
       /\ main dead_backend sample_cwd sample_root sample_tree sample_model
          = Ok NoCodeFiles)
      \/ exists d calls,
           main dead_backend sample_cwd sample_root sample_tree sample_model
           = Ok (Documented d calls)
           /\ Forall2 (fun f k => relpath sample_cwd (fst f) sample_root = Ok k)
                      (find_code_files_bfs sample_root sample_tree)
                      (dict_keys d)
           /\ NoDup (dict_keys d)
           /\ length d = length (find_code_files_bfs sample_root sample_tree)).
Proof.
  split; [reflexivity |]. split; [reflexivity |].
  apply (summary_map_keys dead_backend sample_cwd sample_root sample_tree
           sample_model); reflexivity.
Defined.

(** C6.  For a discovered file whose content is empty or cannot be read or
    decoded, the round of the loop of [main] for that file makes no backend
    call (the calls made are those made before it) and records the fixed
    marker under the relative path of the file, and the marker is what the
    final summary map holds for it. *)
Theorem empty_file_sentinel (be : backend) (cwd root : str)
    (top : option (list node)) (model : str)
    (before after : list fpath) (f : fpath) :
  wf_listing top = true ->
  isabs cwd = true ->
  find_code_files_bfs root top = before ++ f :: after ->
  f_text (snd f) = None \/ f_text (snd f) = Some [] ->
  exists k st d calls,
    relpath cwd (fst f) root = Ok k
    /\ summarize_files be cwd root model before ([], []) = Ok st
    /\ summarize_file be cwd root model st f
       = Ok (dict_set (fst st) k EMPTY_MARKER, snd st)
    /\ main be cwd root top model = Ok (Documented d calls)
    /\ dict_get d k = Some EMPTY_MARKER.
Proof.
  intros Hwf Hcwd Efiles Hempty.
  destruct (run_at be cwd root top model Hwf Hcwd before after f Efiles)
    as (k & st & v & calls1 & d & calls
        & Hk & Hst & Hf & Hblank & _ & Hmain & Hget).
  destruct Hblank as [-> ->].
  { destruct f as [p data]. apply blank_unreadable. exact Hempty. }
  exists k, st, d, calls. repeat split; assumption.
Qed.

Lemma empty_file_sentinel_witness :
  wf_listing sample_tree = true
  /\ isabs sample_cwd = true
  /\ find_code_files_bfs sample_root sample_tree
     = [blob_rs] ++ main_js :: [a_py; b_py]
  /\ (f_text (snd main_js) = None \/ f_text (snd main_js) = Some [])
  /\ exists k st d calls,
       relpath sample_cwd (fst main_js) sample_root = Ok k
       /\ summarize_files (steady_backend (lit "ok")) sample_cwd sample_root
            sample_model [blob_rs] ([], [])
          = Ok st
       /\ summarize_file (steady_backend (lit "ok")) sample_cwd sample_root
            sample_model st main_js
          = Ok (dict_set (fst st) k EMPTY_MARKER, snd st)
       /\ main (steady_backend (lit "ok")) sample_cwd sample_root sample_tree
            sample_model
          = Ok (Documented d calls)
       /\ dict_get d k = Some EMPTY_MARKER.
Proof.
  split; [reflexivity |]. split; [reflexivity |]. split; [reflexivity |].
  split; [right; reflexivity |].
  apply (empty_file_sentinel (steady_backend (lit "ok")) sample_cwd
           sample_root sample_tree sample_model [blob_rs] [a_py; b_py]
           main_js).
  - reflexivity.
  - reflexivity.
  - reflexivity.
  - right. reflexivity.
Defined.

(** C10.  A discovered file whose content is not empty but holds white space
    only is treated like an empty one: the round of the loop for it makes no
    backend call and records the marker, which the final summary map holds
    for it. *)
Theorem whitespace_file_sentinel (be : backend) (cwd root : str)
    (top : option (list node)) (model : str)
    (before after : list fpath) (f : fpath) (text : str) :
  wf_listing top = true ->
  isabs cwd = true ->
  find_code_files_bfs root top = before ++ f :: after ->
  f_text (snd f) = Some text ->
  text <> [] ->
  forallb isspace text = true ->
  exists k st d calls,
    relpath cwd (fst f) root = Ok k
    /\ summarize_files be cwd root model before ([], []) = Ok st
    /\ summarize_file be cwd root model st f
       = Ok (dict_set (fst st) k EMPTY_MARKER, snd st)
    /\ main be cwd root top model = Ok (Documented d calls)
    /\ dict_get d k = Some EMPTY_MARKER.
Proof.
  intros Hwf Hcwd Efiles Htext _ Hspace.
  destruct (run_at be cwd root top model Hwf Hcwd before after f Efiles)
    as (k & st & v & calls1 & d & calls
        & Hk & Hst & Hf & Hblank & _ & Hmain & Hget).
  destruct Hblank as [-> ->].
  { destruct f as [p data]. apply (blank_spaces p data text); assumption. }
  exists k, st, d, calls. repeat split; assumption.
Qed.

Lemma whitespace_file_sentinel_witness :
  wf_listing sample_tree = true
  /\ isabs sample_cwd = true
  /\ find_code_files_bfs sample_root sample_tree
     = [blob_rs; main_js] ++ a_py :: [b_py]
  /\ f_text (snd a_py) = Some (lit "  ")
  /\ lit "  " <> []
  /\ forallb isspace (lit "  ") = true
  /\ exists k st d calls,
       relpath sample_cwd (fst a_py) sample_root = Ok k
       /\ summarize_files (steady_backend (lit "ok")) sample_cwd sample_root
            sample_model [blob_rs; main_js] ([], [])
          = Ok st
       /\ summarize_file (steady_backend (lit "ok")) sample_cwd sample_root
            sample_model st a_py
          = Ok (dict_set (fst st) k EMPTY_MARKER, snd st)
       /\ main (steady_backend (lit "ok")) sample_cwd sample_root sample_tree
            sample_model
          = Ok (Documented d calls)
       /\ dict_get d k = Some EMPTY_MARKER.
Proof.
  split; [reflexivity |]. split; [reflexivity |]. split; [reflexivity |].
  split; [reflexivity |]. split; [discriminate |]. split; [reflexivity |].
  apply (whitespace_file_sentinel (steady_backend (lit "ok")) sample_cwd
           sample_root sample_tree sample_model [blob_rs; main_js] [b_py]
           a_py (lit "  ")).
  - reflexivity.
  - reflexivity.
  - reflexivity.
  - reflexivity.
  - discriminate.
  - reflexivity.
Defined.

(** C5.  When every backend call fails, [main] still does not raise.  In a
    well-formed tree with code files it hands over a summary map with one
    entry per discovered file, in order; and for every file whose content is
    not blank the aggregator completes both phases: one call per chunk, each
    returning an error marker, then the combine call over those markers,
    whose error marker becomes the entry of the file. *)
Theorem degraded_backend_run (be : backend) (cwd root : str)
    (top : option (list node)) (model : str) :
  always_failing be ->
  wf_listing top = true ->
  isabs cwd = true ->
  (find_code_files_bfs root top = []
   /\ main be cwd root top model = Ok NoCodeFiles)
  \/ exists d calls,
       main be cwd root top model = Ok (Documented d calls)
       /\ Forall2 (fun f k => relpath cwd (fst f) root = Ok k)
                  (find_code_files_bfs root top) (dict_keys d)
       /\ NoDup (dict_keys d)
       /\ forall before f after,
            find_code_files_bfs root top = before ++ f :: after ->
            blank f = false ->
            exists k st blocks sums new_calls e,
              relpath cwd (fst f) root = Ok k
              /\ summarize_files be cwd root model before ([], []) = Ok st
              /\ chunk_text (read_file f) CHUNK_CHAR_SIZE = Ok blocks
              /\ blocks <> []
              /\ length sums = length blocks
              /\ Forall degraded sums
              /\ summarize_file be cwd root model st f
                 = Ok (dict_set (fst st) k (error_marker e),
                       snd st ++ new_calls)
              /\ map req_prompt new_calls
                 = map (chunk_prompt k) blocks ++ [combined_prompt k sums]
              /\ dict_get d k = Some (error_marker e).
Proof.
  intros Hbe Hwf Hcwd.
  destruct (main_run be cwd root top model Hwf Hcwd)
    as [Hnone | [d [calls [Hmain [_ Hkeys]]]]]; [left; exact Hnone |].
  right. exists d, calls. split; [exact Hmain |].
  rewrite Hkeys. split; [apply discovered_keys; assumption |].
  split; [apply discovered_keys_NoDup; assumption |].
  intros before f after Efiles Hnb.
  destruct (run_at be cwd root top model Hwf Hcwd before after f Efiles)
    as (k & st & v & calls1 & d' & calls'
        & Hk & Hst & Hf & _ & Hfull & Hmain' & Hget).
  rewrite Hmain in Hmain'. injection Hmain' as <- <-.
  destruct (Hfull Hnb) as [blocks [Hchunks [Hne Hagg]]].
  destruct (aggregator_calls be k model blocks (snd st))
    as [sums [new_calls [Hlen [Hcalls [Hprompts Hdeg]]]]].
  rewrite <- Hagg in Hcalls, Hdeg. cbn [fst snd] in Hcalls, Hdeg.
  destruct (Hdeg Hbe) as [Hsums [e He]]. subst v calls1.
  exists k, st, blocks, sums, new_calls, e.
  repeat split; assumption.
Qed.

Lemma degraded_backend_run_witness :
  always_failing dead_backend
  /\ wf_listing sample_tree = true
  /\ isabs sample_cwd = true
  /\ ((find_code_files_bfs sample_root sample_tree = []
       /\ main dead_backend sample_cwd sample_root sample_tree sample_model
          = Ok NoCodeFiles)
      \/ exists d calls,
           main dead_backend sample_cwd sample_root sample_tree sample_model
           = Ok (Documented d calls)
           /\ Forall2 (fun f k => relpath sample_cwd (fst f) sample_root = Ok k)
                      (find_code_files_bfs sample_root sample_tree)
                      (dict_keys d)
           /\ NoDup (dict_keys d)
           /\ forall before f after,
                find_code_files_bfs sample_root sample_tree
                = before ++ f :: after ->
                blank f = false ->
                exists k st blocks sums new_calls e,
                  relpath sample_cwd (fst f) sample_root = Ok k
                  /\ summarize_files dead_backend sample_cwd sample_root
                       sample_model before ([], [])
                     = Ok st
                  /\ chunk_text (read_file f) CHUNK_CHAR_SIZE = Ok blocks
                  /\ blocks <> []
                  /\ length sums = length blocks
                  /\ Forall degraded sums
                  /\ summarize_file dead_backend sample_cwd sample_root
                       sample_model st f
                     = Ok (dict_set (fst st) k (error_marker e),
                           snd st ++ new_calls)
                  /\ map req_prompt new_calls
                     = map (chunk_prompt k) blocks ++ [combined_prompt k sums]
                  /\ dict_get d k = Some (error_marker e)).
Proof.
  split; [intros calls req; exists (lit "Connection refused"); reflexivity |].
  split; [reflexivity |]. split; [reflexivity |].
  apply (degraded_backend_run dead_backend sample_cwd sample_root sample_tree
           sample_model).
  - intros calls req. exists (lit "Connection refused"). reflexivity.
  - reflexivity.
  - reflexivity.
Defined.

(** The run of the sample checkout against a backend that cannot be reached:
    two sentinels for the unreadable and the empty file, one for the file of
    white space, and an error marker for the file with content, after two
    calls. *)
Example sample_run_dead_backend :
  exists calls,
    main dead_backend sample_cwd sample_root sample_tree sample_model
    = Ok (Documented
            [ (lit "blob.rs", EMPTY_MARKER);
              (lit "main.js", EMPTY_MARKER);
              (lit "src/a.py", EMPTY_MARKER);
              (lit "src/b.py", error_marker (lit "Connection refused")) ]
            calls)
    /\ length calls = 2%nat.
Proof.
  eexists. split; [vm_compute; reflexivity | reflexivity].
Qed.

(** * Further properties of the code *)

(** ** [chunk_text]: the shape of the chunks *)

Lemma slice_length {A} (s : list A) (i j : Z) :
  0 <= i -> i < j -> i < len s ->
  len (slice s i j) = Z.min j (len s) - i.
Proof.
  intros Hi Hij Hlen. rewrite slice_inside by assumption.
  unfold len in *. rewrite length_firstn, length_skipn. lia.
Qed.

Lemma range_up_done (i stop step : Z) :
  stop <= i -> range_up i stop step = [].
Proof.
  funelim (range_up i stop step); intros Hle; [lia | reflexivity..].
Qed.

Lemma chunks_from_sizes (text : str) (size i stop : Z) :
  stop = len text -> 0 <= i -> 0 < size ->
  Forall (fun c => len c = size)
         (removelast (map (fun k => slice text k (k + size))
                          (range_up i stop size)))
  /\ Forall (fun c => 1 <= len c <= size)
            (map (fun k => slice text k (k + size)) (range_up i stop size)).
Proof.
  funelim (range_up i stop size); intros Hstop Hi Hsize.
  - destruct (H text Hstop ltac:(lia) Hsize) as [IH1 IH2]. subst stop.
    assert (Hl : len (slice text i (i + step))
                 = Z.min (i + step) (len text) - i)
      by (apply slice_length; lia).
    split.
    + cbn [map].
      destruct (Z.le_gt_cases (len text) (i + step)) as [Hlast|Hmore].
      * rewrite (range_up_done (i + step)) by exact Hlast. constructor.
      * destruct (map (fun k => slice text k (k + step))
                      (range_up (i + step) (len text) step)) as [|c cs] eqn:E.
        -- constructor.
        -- cbn [removelast]. constructor; [rewrite Hl; lia | exact IH1].
    + cbn [map]. constructor; [rewrite Hl; lia | exact IH2].
  - lia.
  - split; constructor.
Qed.

(** Every chunk but the last has exactly [size] characters, and the last
    has between 1 and [size]: no chunk is empty or too long. *)
Theorem chunk_text_sizes (text : str) (size : Z) :
  0 < size ->
  exists chunks,
    chunk_text text size = Ok chunks
    /\ Forall (fun c => len c = size) (removelast chunks)
    /\ Forall (fun c => 1 <= len c <= size) chunks.
Proof.
  intros Hsize. destruct text as [|c text].
  - exists []. repeat split; constructor.
  - eexists. split; [apply chunk_text_nonempty; [discriminate | lia] |].
    apply (chunks_from_sizes (c :: text) size 0 (len (c :: text)));
      [reflexivity | lia | exact Hsize].
Qed.

Lemma chunk_text_sizes_witness :
  0 < 3
  /\ exists chunks,
       chunk_text (lit "abcdefg") 3 = Ok chunks
       /\ Forall (fun c => len c = 3) (removelast chunks)
       /\ Forall (fun c => 1 <= len c <= 3) chunks.
Proof.
  split; [lia | apply (chunk_text_sizes (lit "abcdefg") 3); lia].
Defined.

Lemma range_up_nth (i stop step : Z) :
  forall k : nat,
    (k < length (range_up i stop step))%nat ->
    nth k (range_up i stop step) 0 = i + Z.of_nat k * step.
Proof.
  funelim (range_up i stop step); intros k Hk; cbn [length] in Hk;
    try lia.
  destruct k as [|k]; cbn [nth].
  - lia.
  - rewrite H by lia. lia.
Qed.

(** The chunk of index [k] is the slice of the text from [k * size] to
    [k * size + size]. *)
Theorem chunk_text_nth (text : str) (size : Z) :
  0 < size ->
  exists chunks,
    chunk_text text size = Ok chunks
    /\ forall k : nat,
         (k < length chunks)%nat ->
         nth k chunks []
         = slice text (Z.of_nat k * size) (Z.of_nat k * size + size).
Proof.
  intros Hsize. destruct text as [|c text].
  - exists []. split; [reflexivity |]. cbn. intros k Hk. lia.
  - eexists. split; [apply chunk_text_nonempty; [discriminate | lia] |].
    intros k Hk. rewrite length_map in Hk.
    rewrite (nth_indep _ [] (slice (c :: text) 0 (0 + size)))
      by (rewrite length_map; exact Hk).
    rewrite (map_nth (fun i => slice (c :: text) i (i + size))).
    rewrite range_up_nth by exact Hk. reflexivity.
Qed.

Lemma chunk_text_nth_witness :
  0 < 3
  /\ exists chunks,
       chunk_text (lit "abcdefg") 3 = Ok chunks
       /\ forall k : nat,
            (k < length chunks)%nat ->
            nth k chunks []
            = slice (lit "abcdefg") (Z.of_nat k * 3) (Z.of_nat k * 3 + 3).
Proof.
  split; [lia | apply (chunk_text_nth (lit "abcdefg") 3); lia].
Defined.

(** A chunk size that is not positive: for a text that is not empty, size 0
    raises the [ValueError] of [range], and a negative size returns no chunk
    at all, so that the text is dropped. *)
Theorem chunk_text_nonpositive_size (text : str) (size : Z) :
  text <> [] ->
  size <= 0 ->
  chunk_text text size
  = if size =? 0 then Raise (lit "range() arg 3 must not be zero")
    else Ok [].
Proof.
  intros Hne Hsize. destruct text as [|c text]; [contradiction |].
  unfold chunk_text. destruct (Z.eqb_spec size 0); [reflexivity |].
  rewrite range_up_equation_1.
  destruct (Z_lt_dec 0 size); [lia | reflexivity].
Qed.

Lemma chunk_text_nonpositive_size_witness :
  lit "abc" <> [] /\ -2 <= 0
  /\ chunk_text (lit "abc") (-2)
     = if -2 =? 0 then Raise (lit "range() arg 3 must not be zero")
       else Ok [].
Proof.
  split; [discriminate |]. split; [lia |].
  apply (chunk_text_nonpositive_size (lit "abc") (-2)); [discriminate | lia].
Defined.

(** A text that is not empty and no longer than the chunk size is returned
    as one chunk, unchanged. *)
Theorem chunk_text_short (text : str) (size : Z) :
  text <> [] ->
  len text <= size ->
  chunk_text text size = Ok [text].
Proof.
  intros Hne Hlen.
  assert (Hpos : 0 < len text)
    by (destruct text; [contradiction | unfold len; cbn; lia]).
  destruct (chunk_text_concat text size ltac:(lia)) as [chunks [Hr Hc]].
  rewrite Hr. f_equal.
  rewrite chunk_text_nonempty in Hr by (assumption || lia).
  injection Hr as Hr.
  assert (Hn : len chunks = 1).
  { rewrite <- Hr. unfold len at 1. rewrite length_map.
    fold (len (range_up 0 (len text) size)).
    rewrite range_up_length by lia. rewrite Z.sub_0_r.
    pose proof (ceil_div_spec (len text) size ltac:(lia)). nia. }
  destruct chunks as [|c [|c' chunks]]; unfold len in Hn; cbn in Hn;
    try lia.
  cbn in Hc. rewrite app_nil_r in Hc. rewrite Hc. reflexivity.
Qed.

Lemma chunk_text_short_witness :
  lit "print(1)" <> [] /\ len (lit "print(1)") <= CHUNK_CHAR_SIZE
  /\ chunk_text (lit "print(1)") CHUNK_CHAR_SIZE = Ok [lit "print(1)"].
Proof.
  split; [discriminate |]. split; [vm_compute; discriminate |].
  apply (chunk_text_short (lit "print(1)") CHUNK_CHAR_SIZE);
    [discriminate | vm_compute; discriminate].
Defined.

(** ** [find_code_files_bfs]: what is found, and in which order *)




Lemma path_of_valid_inj (root : str) (a b : list str) :
  Forall (fun nm => valid_name nm = true) a ->
  Forall (fun nm => valid_name nm = true) b ->
  path_of root a = path_of root b -> a = b.
Proof.
  intros Ha Hb E. apply (f_equal segments) in E.
  rewrite !segments_path_of in E by assumption.
  apply app_inv_head in E. exact E.
Qed.

(** In a well-formed tree no path is returned twice. *)
Theorem find_code_files_no_duplicates (root : str)
    (top : option (list node)) :
  wf_listing top = true ->
  NoDup (map fst (find_code_files_bfs root top)).
Proof.
  intros Hwf.
  apply (Permutation_NoDup (l := map fst (files_of root top))).
  { apply Permutation_map. symmetry. apply find_code_files_perm. }
  unfold files_of. rewrite map_map. cbn [fst].
  rewrite <- (map_map fst (path_of root)).
  apply NoDup_map_inj_on; [| apply chains_of_NoDup, Hwf].
  intros a b Ha Hb E.
  apply in_map_iff in Ha as [ca [<- Ha]].
  apply in_map_iff in Hb as [cb [<- Hb]].
  apply (path_of_valid_inj root); [| | exact E].
  - apply (chains_of_valid top Hwf ca Ha).
  - apply (chains_of_valid top Hwf cb Hb).
Qed.

Lemma find_code_files_no_duplicates_witness :
  wf_listing sample_tree = true
  /\ NoDup (map fst (find_code_files_bfs sample_root sample_tree)).
Proof.
  split; [reflexivity |].
  apply (find_code_files_no_duplicates sample_root sample_tree). reflexivity.
Defined.

Lemma depth_path_join (dir nm : str) :
  valid_name nm = true -> depth (path_join dir nm) = depth dir + 1.
Proof.
  intros Hnm. unfold depth.
  rewrite segments_path_join by (apply valid_name_relative, Hnm).
  destruct (valid_name_facts nm Hnm) as [Hne [Hf _]].
  rewrite (segments_free nm Hne Hf). unfold len. rewrite length_app. cbn. lia.
Qed.

Lemma StronglySorted_snoc {A} (R : A -> A -> Prop) (l : list A) (x : A) :
  StronglySorted R l -> Forall (fun y => R y x) l ->
  StronglySorted R (l ++ [x]).
Proof.
  induction 1 as [|y l Hs IH Hy]; intros Hall; cbn.
  - repeat constructor.
  - inversion Hall; subst. constructor; [apply IH; assumption |].
    apply Forall_app. split; [exact Hy | repeat constructor; assumption].
Qed.

Lemma StronglySorted_filter {A} (R : A -> A -> Prop) (f : A -> bool)
    (l : list A) :
  StronglySorted R l -> StronglySorted R (filter f l).
Proof.
  induction 1 as [|y l Hs IH Hy]; cbn.
  - constructor.
  - destruct (f y); [| exact IH]. constructor; [exact IH |].
    rewrite Forall_forall in *. intros x Hx. apply filter_In in Hx as [Hx _].
    apply Hy, Hx.
Qed.

Lemma wf_node_listing (nm : str) (l : option (list node)) :
  wf_node (Dir nm l) = true -> wf_listing l = true.
Proof.
  destruct l as [l|]; cbn; intros H; [| reflexivity].
  apply andb_prop in H as [H Hd]. apply andb_prop in H as [_ Hall].
  rewrite Hall, Hd. reflexivity.
Qed.

(** One scan of a directory of depth [e] keeps the order: what it adds lies
    at depth [e + 1], behind everything collected and queued before. *)
Lemma bfs_inv_scan (dir : str) (es : list node) :
  forallb wf_node es = true ->
  forall q fs,
    bfs_inv (depth dir) q fs ->
    bfs_inv (depth dir) (fst (scan_entries dir es q fs))
            (snd (scan_entries dir es q fs)).
Proof.
  induction es as [|e es IH]; intros Hwf q fs Hinv; [exact Hinv |].
  cbn [forallb] in Hwf. apply andb_prop in Hwf as [He Hes].
  pose proof (wf_node_name e He) as Hnm.
  destruct Hinv as (Hq & Sq & Hfs & Sfs & Wq).
  destruct e as [nm d | nm l]; cbn [scan_entries node_name] in *.
  - match goal with |- context [if ?b then _ else _] => destruct b end.
    + apply (IH Hes). unfold bfs_inv. repeat split; try assumption.
      * apply Forall_app. split; [exact Hfs |].
        repeat constructor. unfold file_depth. cbn [fst].
        rewrite depth_path_join by exact Hnm. lia.
      * apply StronglySorted_snoc; [exact Sfs |].
        apply (Forall_impl _ (P := fun f => file_depth f <= depth dir + 1));
          [| exact Hfs].
        intros f Hf. unfold key_le, file_depth in *. cbn [fst].
        rewrite depth_path_join by exact Hnm. lia.
    + apply (IH Hes). unfold bfs_inv. repeat split; assumption.
  - destruct (negb (mem nm EXCLUDE_DIRS)).
    + apply (IH Hes). unfold bfs_inv. repeat split; try assumption.
      * apply Forall_app. split; [exact Hq |].
        repeat constructor; unfold dir_depth; cbn [fst];
          rewrite depth_path_join by exact Hnm; lia.
      * apply StronglySorted_snoc; [exact Sq |].
        apply (Forall_impl _ (P := fun d => depth dir <= dir_depth d
                                            <= depth dir + 1));
          [| exact Hq].
        intros x Hx. unfold key_le, dir_depth in *. cbn [fst].
        rewrite depth_path_join by exact Hnm. lia.
      * apply Forall_app. split; [exact Wq |].
        repeat constructor. cbn [snd]. apply (wf_node_listing nm), He.
    + apply (IH Hes). unfold bfs_inv. repeat split; assumption.
Qed.

(** Taking the first directory from the queue. *)
Lemma bfs_inv_pop (e : Z) (dir : str) (l : option (list node))
    (q : list queued) (fs : list fpath) :
  bfs_inv e ((dir, l) :: q) fs ->
  bfs_inv (depth dir) q fs /\ wf_listing l = true.
Proof.
  intros (Hq & Sq & Hfs & Sfs & Wq).
  inversion Hq as [|? ? Hd Hq']; subst.
  inversion Sq as [|? ? Sq' Hle]; subst.
  inversion Wq as [|? ? Wl Wq']; subst.
  unfold dir_depth in Hd. cbn [fst snd] in *.
  split; [| exact Wl]. unfold bfs_inv. repeat split; try assumption.
  - rewrite Forall_forall in *. intros x Hx.
    specialize (Hq' x Hx). specialize (Hle x Hx).
    unfold key_le, dir_depth in *. cbn [fst] in Hle. lia.
  - apply (Forall_impl _ (P := fun f => file_depth f <= e + 1));
      [| exact Hfs].
    intros f Hf. lia.
Qed.

Lemma bfs_depth_sorted (queue : list queued) (files : list fpath)
    (scanned : list str) :
  forall e, bfs_inv e queue files ->
            StronglySorted (key_le file_depth) (fst (bfs queue files scanned)).
Proof.
  funelim (bfs queue files scanned); intros e Hinv.
  - destruct Hinv as (_ & _ & _ & Sfs & _). exact Sfs.
  - destruct (bfs_inv_pop e _ _ _ _ Hinv) as [Hpop Hwf].
    apply (H (depth current_dir)).
    apply bfs_inv_scan; [| exact Hpop].
    cbn [wf_listing] in Hwf. apply andb_prop in Hwf as [Hall _]. exact Hall.
  - destruct (bfs_inv_pop e _ _ _ _ Hinv) as [Hpop _].
    apply (H (depth current_dir)). exact Hpop.
Qed.

(** The traversal is breadth-first: in a well-formed tree it collects the
    files in order of depth, and since the sort by size is stable, files of
    the same size are returned with the shallower ones first. *)
Theorem find_code_files_breadth_first (root : str)
    (top : option (list node)) :
  wf_listing top = true ->
  StronglySorted (key_le file_depth) (fst (traverse root top))
  /\ forall k,
       StronglySorted (key_le file_depth)
         (filter (fun a => getsize a =? k) (find_code_files_bfs root top)).
Proof.
  intros Hwf.
  assert (Ht : StronglySorted (key_le file_depth) (fst (traverse root top))).
  { unfold traverse. apply (bfs_depth_sorted _ _ _ (depth root)).
    unfold bfs_inv. repeat split; repeat constructor;
      unfold dir_depth; cbn [fst snd]; try lia; exact Hwf. }
  split; [exact Ht |].
  intros k. unfold find_code_files_bfs. rewrite sort_by_stable.
  apply StronglySorted_filter, Ht.
Qed.

Lemma find_code_files_breadth_first_witness :
  wf_listing sample_tree = true
  /\ StronglySorted (key_le file_depth)
                    (fst (traverse sample_root sample_tree))
  /\ forall k,
       StronglySorted (key_le file_depth)
         (filter (fun a => getsize a =? k)
                 (find_code_files_bfs sample_root sample_tree)).
Proof.
  split; [reflexivity |].
  apply (find_code_files_breadth_first sample_root sample_tree). reflexivity.
Defined.

(** ** [find_code_files_bfs]: the extension test *)

Lemma rfind_from_app (c : ascii) (a b : str) :
  forall i last,
    rfind_from c (a ++ b) i last
    = rfind_from c b (i + len a) (rfind_from c a i last).
Proof.
  induction a as [|x a IH]; intros i last; cbn [app rfind_from].
  - unfold len. cbn. rewrite Z.add_0_r. reflexivity.
  - rewrite IH. f_equal. unfold len. cbn [length]. lia.
Qed.

Lemma rfind_from_absent (c : ascii) (b : str) :
  existsb (Ascii.eqb c) b = false ->
  forall i last, rfind_from c b i last = last.
Proof.
  induction b as [|x b IH]; intros H i last; cbn [rfind_from].
  - reflexivity.
  - cbn [existsb] in H. apply orb_false_elim in H as [Hx Hb].
    rewrite Ascii.eqb_sym, Hx. apply IH, Hb.
Qed.

Lemma rfind_last (c : ascii) (a b : str) :
  existsb (Ascii.eqb c) b = false -> rfind c (a ++ c :: b) = len a.
Proof.
  intros Hb. unfold rfind. rewrite rfind_from_app. cbn [rfind_from].
  rewrite Ascii.eqb_refl. rewrite rfind_from_absent by exact Hb. lia.
Qed.

Lemma rfind_absent (c : ascii) (s : str) :
  existsb (Ascii.eqb c) s = false -> rfind c s = -1.
Proof. intros H. apply rfind_from_absent, H. Qed.

Lemma existsb_app_false {A} (f : A -> bool) (a b : list A) :
  existsb f a = false -> existsb f b = false -> existsb f (a ++ b) = false.
Proof. intros Ha Hb. rewrite existsb_app, Ha, Hb. reflexivity. Qed.

Lemma slice_prefix {A} (a b : list A) : slice (a ++ b) 0 (len a) = a.
Proof.
  unfold slice, adjust_index. cbn [Z.ltb Z.compare].
  assert (Hlen : len (a ++ b) = len a + len b)
    by (unfold len; rewrite length_app; lia).
  pose proof (len_nonneg a) as Ha. pose proof (len_nonneg b) as Hb.
  destruct (Z.ltb_spec (len a) 0); [lia |].
  rewrite Z.min_l by lia. rewrite (Z.min_l (len a)) by lia.
  destruct (Z.ltb_spec 0 (len a)) as [Hpos|Hzero].
  - rewrite Z.sub_0_r. cbn [Z.to_nat skipn]. unfold len.
    rewrite Nat2Z.id. rewrite firstn_app, Nat.sub_diag, firstn_all.
    cbn. apply app_nil_r.
  - destruct a; [reflexivity | unfold len in Hzero; cbn in Hzero; lia].
Qed.

Lemma slice_suffix {A} (a b : list A) :
  slice (a ++ b) (len a) (len (a ++ b)) = b.
Proof.
  unfold slice, adjust_index.
  assert (Hlen : len (a ++ b) = len a + len b)
    by (unfold len; rewrite length_app; lia).
  pose proof (len_nonneg a) as Ha. pose proof (len_nonneg b) as Hb.
  destruct (Z.ltb_spec (len a) 0); [lia |].
  destruct (Z.ltb_spec (len (a ++ b)) 0); [lia |].
  rewrite Z.min_l by lia. rewrite Z.min_id.
  destruct (Z.ltb_spec (len a) (len (a ++ b))) as [Hlt|Hge].
  - unfold len at 3. rewrite Nat2Z.id, skipn_app, skipn_all, Nat.sub_diag.
    cbn [skipn app]. apply firstn_all2. unfold len in *. lia.
  - destruct b; [reflexivity | unfold len in *; cbn in *; lia].
Qed.

(** The extension of a name [base.e], where [base] is not made of dots only
    and [e] holds no dot, is [.e]. *)
Lemma splitext_name (base e : str) :
  sep_free base -> sep_free e ->
  existsb (Ascii.eqb extsep) e = false ->
  existsb (fun c => negb (Ascii.eqb c extsep)) base = true ->
  splitext (base ++ extsep :: e) = (base, extsep :: e).
Proof.
  intros Hb He Hdot Hbase. unfold splitext.
  rewrite (rfind_last extsep base e Hdot).
  rewrite rfind_absent.
  2:{ apply existsb_app_false; [exact Hb |].
      cbn [existsb]. rewrite He. reflexivity. }
  pose proof (len_nonneg base) as Hlen.
  destruct (Z.ltb_spec (-1) (len base)); [| lia].
  change (-1 + 1) with 0. rewrite slice_prefix, Hbase. cbn [andb].
  rewrite slice_suffix. reflexivity.
Qed.

(** A name without a dot, or with dots only before its last dot, has no
    extension. *)
Lemma splitext_no_extension (dots e : str) :
  sep_free dots -> sep_free e ->
  existsb (Ascii.eqb extsep) e = false ->
  forallb (Ascii.eqb extsep) dots = true ->
  splitext (dots ++ e) = (dots ++ e, [])
  /\ splitext (dots ++ extsep :: e) = (dots ++ extsep :: e, []).
Proof.
  intros Hd He Hdot Hdots.
  assert (Hnone : existsb (fun c => negb (Ascii.eqb c extsep)) dots = false).
  { clear Hd. induction dots as [|c dots IH]; [reflexivity |].
    cbn [forallb existsb] in *. apply andb_prop in Hdots as [Hc Hrest].
    rewrite Ascii.eqb_sym, Hc. cbn. apply IH, Hrest. }
  split.
  - unfold splitext.
    destruct dots as [|c dots _] using rev_ind.
    + cbn [app]. rewrite (rfind_absent extsep e Hdot).
      rewrite (rfind_absent sep e He). reflexivity.
    + rewrite forallb_app in Hdots. apply andb_prop in Hdots as [_ Hc].
      cbn [forallb] in Hc. apply andb_prop in Hc as [Hc _].
      apply Ascii.eqb_eq in Hc. subst c.
      rewrite <- app_assoc. cbn [app].
      rewrite (rfind_last extsep dots e Hdot).
      unfold sep_free in Hd. rewrite existsb_app in Hd.
      apply orb_false_elim in Hd as [Hd _].
      rewrite rfind_absent.
      2:{ apply existsb_app_false; [exact Hd |].
          cbn [existsb]. rewrite He. reflexivity. }
      pose proof (len_nonneg dots) as Hlen.
      destruct (Z.ltb_spec (-1) (len dots)); [| lia].
      change (-1 + 1) with 0. rewrite slice_prefix.
      rewrite existsb_app in Hnone. apply orb_false_elim in Hnone as [Hn _].
      rewrite Hn. reflexivity.
  - unfold splitext.
    rewrite (rfind_last extsep dots e Hdot).
    rewrite rfind_absent.
    2:{ apply existsb_app_false; [exact Hd |].
        cbn [existsb]. rewrite He. reflexivity. }
    pose proof (len_nonneg dots) as Hlen.
    destruct (Z.ltb_spec (-1) (len dots)); [| lia].
    change (-1 + 1) with 0. rewrite slice_prefix, Hnone. reflexivity.
Qed.

(** The extension test on a name [base.e] (where [base] is not made of dots
    only and [e] holds no dot) compares [.e] in lower case with the set of
    code extensions: the test does not depend on the case of [e] or on
    [base]. *)
Theorem extension_test_named (base e : str) :
  sep_free base -> sep_free e ->
  existsb (Ascii.eqb extsep) e = false ->
  existsb (fun c => negb (Ascii.eqb c extsep)) base = true ->
  is_code_file (base ++ extsep :: e)
  = mem (lower (extsep :: e)) CODE_EXTENSIONS.
Proof.
  intros Hb He Hdot Hbase. unfold is_code_file.
  rewrite splitext_name by assumption. reflexivity.
Qed.

Lemma extension_test_named_witness :
  sep_free (lit "Main") /\ sep_free (lit "PY")
  /\ existsb (Ascii.eqb extsep) (lit "PY") = false
  /\ existsb (fun c => negb (Ascii.eqb c extsep)) (lit "Main") = true
  /\ is_code_file (lit "Main" ++ extsep :: lit "PY")
     = mem (lower (extsep :: lit "PY")) CODE_EXTENSIONS.
Proof.
  repeat (split; [reflexivity |]).
  apply (extension_test_named (lit "Main") (lit "PY")); reflexivity.
Defined.

(** A file whose name has no dot, or has dots only before its last dot (a
    hidden file such as [.py] or [..env]), is never taken for a code file. *)
Theorem extension_test_hidden (dots e : str) :
  sep_free dots -> sep_free e ->
  existsb (Ascii.eqb extsep) e = false ->
  forallb (Ascii.eqb extsep) dots = true ->
  is_code_file (dots ++ e) = false
  /\ is_code_file (dots ++ extsep :: e) = false.
Proof.
  intros Hd He Hdot Hdots. unfold is_code_file.
  destruct (splitext_no_extension dots e Hd He Hdot Hdots) as [-> ->].
  split; reflexivity.
Qed.

Lemma extension_test_hidden_witness :
  sep_free [] /\ sep_free (lit "py")
  /\ existsb (Ascii.eqb extsep) (lit "py") = false
  /\ forallb (Ascii.eqb extsep) [] = true
  /\ is_code_file ([] ++ lit "py") = false
  /\ is_code_file ([] ++ extsep :: lit "py") = false.
Proof.
  repeat (split; [reflexivity |]).
  apply (extension_test_hidden [] (lit "py")); reflexivity.
Defined.

(** ** [ollama_generate]: the text returned *)

Lemma lstrip_split (s : str) :
  exists sp, s = sp ++ lstrip s /\ forallb isspace sp = true.
Proof.
  induction s as [|c s [sp [E Hsp]]]; cbn [lstrip].
  - exists []. split; reflexivity.
  - destruct (isspace c) eqn:Hc.
    + exists (c :: sp). cbn [app forallb]. rewrite Hc, Hsp.
      split; [f_equal; exact E | reflexivity].
    + exists []. split; reflexivity.
Qed.

Lemma lstrip_head (s : str) :
  match lstrip s with
  | [] => True
  | c :: _ => isspace c = false
  end.
Proof.
  induction s as [|c s IH]; cbn [lstrip]; [exact I |].
  destruct (isspace c) eqn:Hc; [exact IH | exact Hc].
Qed.

Lemma lstrip_fixed (s : str) :
  match s with
  | [] => True
  | c :: _ => isspace c = false
  end ->
  lstrip s = s.
Proof.
  destruct s as [|c s]; [reflexivity |]. cbn [lstrip]. intros ->. reflexivity.
Qed.

Lemma rstrip_split (t : str) :
  exists sp, t = rstrip t ++ sp /\ forallb isspace sp = true.
Proof.
  unfold rstrip. destruct (lstrip_split (rev t)) as [sp [E Hsp]].
  exists (rev sp). split.
  - rewrite <- rev_app_distr, <- E, rev_involutive. reflexivity.
  - rewrite forallb_forall in *. intros c Hc. apply Hsp.
    apply in_rev. exact Hc.
Qed.

(** [rstrip] keeps a first character that is not white space. *)
Lemma rstrip_keeps_head (c : ascii) (t : str) :
  isspace c = false -> exists r, rstrip (c :: t) = c :: r.
Proof.
  intros Hc. destruct (rstrip_split (c :: t)) as [sp [E Hsp]].
  destruct (rstrip (c :: t)) as [|x r].
  - cbn [app] in E. subst sp. cbn [forallb] in Hsp.
    rewrite Hc in Hsp. discriminate.
  - injection E as <- _. exists r. reflexivity.
Qed.

Lemma strip_idempotent (s : str) : strip (strip s) = strip s.
Proof.
  unfold strip at 2 3.
  pose proof (lstrip_head s) as Hhead.
  destruct (lstrip s) as [|c r] eqn:E; [reflexivity |].
  destruct (rstrip_keeps_head c r Hhead) as [r' Er].
  assert (Hl : lstrip (rstrip (c :: r)) = rstrip (c :: r)).
  { rewrite Er. apply lstrip_fixed. exact Hhead. }
  unfold strip. rewrite Hl.
  unfold rstrip at 1. unfold rstrip at 1. rewrite rev_involutive.
  rewrite (lstrip_fixed (lstrip (rev (c :: r)))) by apply lstrip_head.
  reflexivity.
Qed.

Lemma strip_error_marker (e : str) :
  strip (error_marker e) = error_marker e.
Proof.
  unfold strip. rewrite (lstrip_fixed (error_marker e)) by reflexivity.
  unfold rstrip.
  assert (H : lstrip (rev (error_marker e)) = rev (error_marker e)).
  { unfold error_marker. rewrite app_assoc, rev_app_distr.
    apply lstrip_fixed. reflexivity. }
  rewrite H. apply rev_involutive.
Qed.

(** Whatever the exchange does, the text [ollama_generate] returns has no
    white space at its start or its end: stripping it changes nothing. *)
Theorem generate_text_stripped (be : backend) (prompt model : str)
    (calls : list request) :
  strip (fst (ollama_generate be prompt model calls))
  = fst (ollama_generate be prompt model calls).
Proof.
  unfold ollama_generate. cbn [fst]. unfold generate_text.
  destruct (be calls (mkRequest model prompt)) as [e | e | lines broken].
  - apply strip_error_marker.
  - apply strip_error_marker.
  - cbn [try_generate]. destruct (read_lines lines []) as [output | e].
    + destruct broken as [e |].
      * apply strip_error_marker.
      * apply strip_idempotent.
    + apply strip_error_marker.
Qed.

Lemma fragments_relevant (lines : list line) :
  fragments (filter relevant lines) = fragments lines
  /\ first_error (filter relevant lines) = first_error lines.
Proof.
  induction lines as [|l lines [IHf IHe]]; [split; reflexivity |].
  destruct l as [|e|[|s|e]]; cbn [filter relevant fragments first_error].
  - split; assumption.
  - split; [assumption | reflexivity].
  - split; assumption.
  - split; [f_equal; assumption | assumption].
  - split; [assumption | reflexivity].
Qed.

(** Empty lines and objects without the key ["response"] do not change what
    [ollama_generate] returns, wherever they stand in the stream. *)
Theorem generate_text_ignores_padding (lines : list line)
    (broken : option str) :
  generate_text (Streamed (filter relevant lines) broken)
  = generate_text (Streamed lines broken).
Proof.
  unfold generate_text, try_generate. rewrite !read_lines_spec.
  destruct (fragments_relevant lines) as [-> ->]. reflexivity.
Qed.

(** ** [ollama_summarize_text_blocks]: the order of the calls *)

Lemma summarize_chunks_protocol (be : backend) (file_path model : str)
    (blocks : list str) :
  forall sums calls,
    exists new_sums,
      summarize_chunks be blocks file_path model sums calls
      = (sums ++ new_sums,
         calls ++ chunk_requests model file_path blocks)
      /\ length new_sums = length blocks
      /\ forall i,
           (i < length blocks)%nat ->
           nth i new_sums []
           = generate_text
               (be (calls
                    ++ firstn i (chunk_requests model file_path blocks))
                   (nth i (chunk_requests model file_path blocks)
                        no_request)).
Proof.
  induction blocks as [|chunk blocks IH]; intros sums calls.
  - exists []. cbn. rewrite !app_nil_r. repeat split. intros i Hi. lia.
  - cbn [summarize_chunks]. unfold ollama_generate at 1 2. cbn [fst snd].
    set (req := mkRequest model (chunk_prompt file_path chunk)).
    destruct (IH (sums ++ [generate_text (be calls req)]) (calls ++ [req]))
      as [ns [E [Hlen Hnth]]].
    exists (generate_text (be calls req) :: ns).
    rewrite E, <- !app_assoc. cbn [app length chunk_requests map].
    fold req. fold (chunk_requests model file_path blocks).
    repeat split.
    + rewrite Hlen. reflexivity.
    + intros [|i] Hi; cbn [nth firstn].
      * rewrite app_nil_r. reflexivity.
      * rewrite Hnth by lia. rewrite <- app_assoc. reflexivity.
Qed.

Lemma aggregator_result (be : backend) (blocks : list str)
    (file_path model : str) (calls : list request) :
  exists sums,
    length sums = length blocks
    /\ ollama_summarize_text_blocks be blocks file_path model calls
       = (generate_text
            (be (calls ++ chunk_requests model file_path blocks)
                (combine_request model file_path sums)),
          calls ++ chunk_requests model file_path blocks
                ++ [combine_request model file_path sums]).
Proof.
  destruct (summarize_chunks_protocol be file_path model blocks [] calls)
    as [sums [E [Hlen _]]].
  exists sums. split; [exact Hlen |].
  unfold ollama_summarize_text_blocks. rewrite E. cbn [fst snd app].
  unfold ollama_generate, combine_request. rewrite <- app_assoc.
  reflexivity.
Qed.

(** For any backend, the aggregator makes one request per chunk, in the
    order of the chunks, and then one combine request whose prompt holds the
    answers to the chunk requests in that order; every request carries the
    model, each is made after all the earlier ones, and the result is the
    answer to the combine request. *)
Theorem aggregator_protocol (be : backend) (blocks : list str)
    (file_path model : str) (calls : list request) :
  exists sums,
    length sums = length blocks
    /\ (forall i,
          (i < length blocks)%nat ->
          nth i sums []
          = generate_text
              (be (calls ++ firstn i (chunk_requests model file_path blocks))
                  (nth i (chunk_requests model file_path blocks)
                       no_request)))
    /\ ollama_summarize_text_blocks be blocks file_path model calls
       = (generate_text
            (be (calls ++ chunk_requests model file_path blocks)
                (combine_request model file_path sums)),
          calls ++ chunk_requests model file_path blocks
                ++ [combine_request model file_path sums]).
Proof.
  destruct (summarize_chunks_protocol be file_path model blocks [] calls)
    as [sums [E [Hlen Hnth]]].
  exists sums. split; [exact Hlen |]. split; [exact Hnth |].
  unfold ollama_summarize_text_blocks. rewrite E. cbn [fst snd app].
  unfold ollama_generate, combine_request. rewrite <- app_assoc.
  reflexivity.
Qed.

(** ** [main]: the backend calls of a run *)

Lemma chunk_text_count (text : str) (size : Z) (chunks : list str) :
  0 < size ->
  chunk_text text size = Ok chunks ->
  len chunks = ceil_div (len text) size.
Proof.
  intros Hsize Hr. destruct text as [|c text].
  - injection Hr as <-. unfold ceil_div, len. cbn.
    rewrite Z.div_small by lia. reflexivity.
  - rewrite chunk_text_nonempty in Hr by (discriminate || lia).
    injection Hr as <-. unfold len at 1. rewrite length_map.
    fold (len (range_up 0 (len (c :: text)) size)).
    rewrite range_up_length by lia. rewrite Z.sub_0_r.
    pose proof (ceil_div_spec (len (c :: text)) size Hsize).
    pose proof (len_nonneg (c :: text)). nia.
Qed.

Section CallLog.
Variables (be : backend) (cwd root model : str).

Lemma summarize_file_calls (st : run_state) (f : fpath) (k : str) :
  relpath cwd (fst f) root = Ok k ->
  exists v c,
    summarize_file be cwd root model st f
    = Ok (dict_set (fst st) k v, snd st ++ c)
    /\ file_calls cwd root model f c.
Proof.
  intros Hk.
  destruct (summarize_file_spec be cwd root model st f k Hk)
    as [v [calls' [E [Hblank Hfull]]]].
  destruct (blank f) eqn:Hb.
  - destruct (Hblank eq_refl) as [-> ->]. exists EMPTY_MARKER, [].
    rewrite app_nil_r. split; [exact E |].
    exists k. split; [exact Hk |].
    split; [reflexivity | intros H; congruence].
  - destruct (Hfull eq_refl) as [blocks [Hchunks [Hne Hagg]]].
    destruct (aggregator_result be blocks k model (snd st))
      as [sums [Hlen Hres]].
    rewrite Hres in Hagg. injection Hagg as -> ->.
    eexists. exists (chunk_requests model k blocks
                     ++ [combine_request model k sums]).
    split; [exact E |].
    exists k. split; [exact Hk |]. split; [intros H; congruence |].
    intros _. exists blocks, sums. repeat split; try assumption.
    apply (chunk_text_count (read_file f) CHUNK_CHAR_SIZE blocks);
      [unfold CHUNK_CHAR_SIZE; lia | exact Hchunks].
Qed.

Lemma summarize_files_calls (files : list fpath) (keys : list str) :
  Forall2 (fun f k => relpath cwd (fst f) root = Ok k) files keys ->
  forall st,
    exists st' cs,
      summarize_files be cwd root model files st = Ok st'
      /\ snd st' = snd st ++ concat cs
      /\ Forall2 (file_calls cwd root model) files cs.
Proof.
  induction 1 as [|f k files keys Hk Hrest IH]; intros st.
  - exists st, []. cbn. rewrite app_nil_r. repeat split. constructor.
  - destruct (summarize_file_calls st f k Hk) as [v [c [E Hc]]].
    destruct (IH (dict_set (fst st) k v, snd st ++ c))
      as [st' [cs [E' [Hcalls Hall]]]].
    exists st', (c :: cs). cbn [summarize_files]. rewrite E. cbn [bind].
    split; [exact E' |]. split.
    + rewrite Hcalls. cbn [snd concat]. rewrite app_assoc. reflexivity.
    + constructor; assumption.
Qed.
End CallLog.

(** The backend calls of a run, for any backend: in a well-formed tree they
    are the calls for the discovered files in the order of the list, none
    for a file with blank content and, for any other file, one per chunk of
    8000 characters followed by the combine call. *)
Theorem run_call_log (be : backend) (cwd root : str)
    (top : option (list node)) (model : str) :
  wf_listing top = true ->
  isabs cwd = true ->
  (find_code_files_bfs root top = []
   /\ main be cwd root top model = Ok NoCodeFiles)
  \/ exists d calls cs,
       main be cwd root top model = Ok (Documented d calls)
       /\ calls = concat cs
       /\ Forall2 (file_calls cwd root model)
                  (find_code_files_bfs root top) cs.
Proof.
  intros Hwf Hcwd.
  destruct (main_run be cwd root top model Hwf Hcwd)
    as [Hnone | [d [calls [Hmain [Hrun _]]]]]; [left; exact Hnone |].
  right.
  destruct (summarize_files_calls be cwd root model
              (find_code_files_bfs root top) _
              (discovered_keys cwd root top Hwf Hcwd) ([], []))
    as [st' [cs [E [Hcalls Hall]]]].
  rewrite Hrun in E. injection E as <-.
  exists d, calls, cs. cbn [snd app] in Hcalls.
  repeat split; assumption.
Qed.

Lemma run_call_log_witness :
  wf_listing sample_tree = true
  /\ isabs sample_cwd = true
  /\ ((find_code_files_bfs sample_root sample_tree = []
       /\ main dead_backend sample_cwd sample_root sample_tree sample_model
          = Ok NoCodeFiles)
      \/ exists d calls cs,
           main dead_backend sample_cwd sample_root sample_tree sample_model
           = Ok (Documented d calls)
           /\ calls = concat cs
           /\ Forall2 (file_calls sample_cwd sample_root sample_model)
                      (find_code_files_bfs sample_root sample_tree) cs).
Proof.
  split; [reflexivity |]. split; [reflexivity |].
  apply (run_call_log dead_backend sample_cwd sample_root sample_tree
           sample_model); reflexivity.
Defined.

(** The key of a discovered file in the summary map is made of the names
    from the root down to the file, joined by slashes: it is a relative
    path whose segments are those names, whatever the root and the working
    directory are. *)
Theorem summary_key_form (cwd root : str) (top : option (list node))
    (f : fpath) :
  wf_listing top = true ->
  isabs cwd = true ->
  In f (find_code_files_bfs root top) ->
  exists names,
    names <> []
    /\ Forall (fun nm => valid_name nm = true) names
    /\ fst f = path_of root names
    /\ relpath cwd (fst f) root = Ok (str_join [sep] names)
    /\ segments (str_join [sep] names) = names
    /\ isabs (str_join [sep] names) = false.
Proof.
  intros Hwf Hcwd Hf.
  destruct (discovered_relpath cwd root top Hwf Hcwd f Hf)
    as [c [Hc [-> Hrel]]].
  pose proof (chains_of_valid top Hwf c Hc) as Hval.
  destruct (chains_of_names top c Hc) as [_ Hne].
  exists (fst c).
  split; [exact Hne |]. split; [exact Hval |]. split; [reflexivity |].
  split; [exact Hrel |]. split.
  - apply segments_str_join, valid_names_plain, Hval.
  - destruct (fst c) as [|nm rest]; [contradiction |].
    inversion Hval as [|? ? Hnm _]; subst.
    pose proof (valid_name_relative nm Hnm) as Hrel'.
    destruct nm as [|x nm]; [discriminate |].
    destruct rest; exact Hrel'.
Qed.

Lemma summary_key_form_witness :
  wf_listing sample_tree = true
  /\ isabs sample_cwd = true
  /\ In b_py (find_code_files_bfs sample_root sample_tree)
  /\ exists names,
       names <> []
       /\ Forall (fun nm => valid_name nm = true) names
       /\ fst b_py = path_of sample_root names
       /\ relpath sample_cwd (fst b_py) sample_root
          = Ok (str_join [sep] names)
       /\ segments (str_join [sep] names) = names
       /\ isabs (str_join [sep] names) = false.
Proof.
  split; [reflexivity |]. split; [reflexivity |].
  split; [vm_compute; tauto |].
  apply (summary_key_form sample_cwd sample_root sample_tree b_py);
    [reflexivity | reflexivity | vm_compute; tauto].
Defined.

(** ** [detect_top_level_info] and [write_docx] *)






Lemma starts_with_prefix (old s : str) :
  starts_with old s = true -> exists b, s = old ++ b.
Proof.
  revert s. induction old as [|c old IH]; intros s H.
  - exists s. reflexivity.
  - destruct s as [|x s]; [discriminate |]. cbn [starts_with] in H.
    apply andb_prop in H as [Hc Hrest]. apply Ascii.eqb_eq in Hc. subst x.
    destruct (IH s Hrest) as [b ->]. exists b. reflexivity.
Qed.

Lemma replace_go_absent (old new s : str) :
  ~ occurs old s -> replace_go old new s 0 = s.
Proof.
  induction s as [|c s IH]; intros Habs; [reflexivity |].
  cbn [replace_go].
  destruct (starts_with old (c :: s)) eqn:E.
  - exfalso. apply Habs. destruct (starts_with_prefix _ _ E) as [b Hb].
    exists [], b. exact Hb.
  - f_equal. apply IH. intros [a [b Hb]]. apply Habs.
    exists (c :: a), b. rewrite Hb. reflexivity.
Qed.

(** The heading of a key in which the root path does not occur and which
    does not start with a slash is the key itself. *)
Lemma doc_heading_key (repo_root key : str) :
  ~ occurs repo_root key -> isabs key = false ->
  doc_heading repo_root key = key.
Proof.
  intros Habs Hrel. unfold doc_heading, str_replace.
  destruct repo_root as [|c root].
  - exfalso. apply Habs. exists [], key. reflexivity.
  - rewrite replace_go_absent by exact Habs.
    destruct key as [|x key]; [reflexivity |].
    cbn [isabs] in Hrel. cbn [lstrip_chars existsb].
    rewrite Hrel. reflexivity.
Qed.

(** The document [write_docx] builds has one section per entry of the
    summary map, in the order of the map: a heading of level 2 and under it
    the summary.  When no key holds the root path and no key starts with a
    slash, the headings are the keys, so that the sections of the document
    are the map. *)
Theorem write_docx_sections (repo_url repo_root deps_summary : str)
    (file_summaries : dict) :
  (forall k, In k (dict_keys file_summaries) ->
             ~ occurs repo_root k /\ isabs k = false) ->
  file_sections (write_docx repo_url repo_root deps_summary file_summaries)
  = file_summaries.
Proof.
  intros Hkeys. unfold write_docx. cbn [app file_sections].
  induction file_summaries as [|[k v] d IH]; [reflexivity |].
  cbn [flat_map app fst snd file_sections].
  destruct (Hkeys k (or_introl eq_refl)) as [Habs Hrel].
  rewrite (doc_heading_key repo_root k Habs Hrel). f_equal.
  apply IH. intros k' Hk'. apply Hkeys. right. exact Hk'.
Qed.

Lemma write_docx_sections_witness :
  let d := [(lit "main.js", EMPTY_MARKER); (lit "src/b.py", lit "Prints 1.")] in
  (forall k, In k (dict_keys d) ->
             ~ occurs sample_root k /\ isabs k = false)
  /\ file_sections (write_docx (lit "https://example.org/r.git") sample_root
                               [] d)
     = d.
Proof.
  cbv zeta.
  assert (H : forall k,
             In k (dict_keys [(lit "main.js", EMPTY_MARKER);
                              (lit "src/b.py", lit "Prints 1.")]) ->
             ~ occurs sample_root k /\ isabs k = false).
  { intros k [<- | [<- | []]]; (split; [| reflexivity]);
      intros [a [b E]]; apply (f_equal (@length ascii)) in E;
      rewrite !length_app in E; cbn in E; lia. }
  split; [exact H |].
  apply (write_docx_sections (lit "https://example.org/r.git") sample_root []
           _ H).
Defined.

(** Where the root path does occur in a key, the heading is not the key:
    with the checkout at [/src], the file [lib/src/a.py] is shown as
    [lib/a.py]. *)
Example doc_heading_root_inside_key :
  doc_heading (lit "/src") (lit "lib/src/a.py") = lit "lib/a.py".
Proof. reflexivity. Qed.

(** ** [get_unique_repo_path]: one acquisition after another *)

Lemma get_unique_repo_path_free (existing : list str) (p : posix_path)
    (fuel : nat) :
  (length existing < fuel)%nat ->
  exists r,
    get_unique_repo_path existing p fuel = Some r /\ mem r existing = false.
Proof.
  intros Hfuel. unfold get_unique_repo_path.
  destruct (path_exists existing p) eqn:E; cbn [negb].
  - destruct (unique_loop existing p fuel 1) as [r|] eqn:L.
    + destruct (unique_loop_some existing p fuel 1 r L)
        as [k [_ [-> [Hfree _]]]].
      exists (path_str (numbered p k)). split; [reflexivity | exact Hfree].
    + exfalso. apply (candidates_not_all_exist existing p fuel Hfuel).
      apply (unique_loop_none existing p fuel 1 L).
  - exists (path_str p). split; [reflexivity | exact E].
Qed.

(** Two acquisitions into the same destination, the second after the path
    of the first has come to exist, get two different paths, and neither is
    a path that existed before. *)
Theorem get_unique_repo_path_twice (existing : list str) (p : posix_path)
    (fuel : nat) :
  (length existing < fuel)%nat ->
  exists r1 r2,
    get_unique_repo_path existing p fuel = Some r1
    /\ get_unique_repo_path (r1 :: existing) p (S fuel) = Some r2
    /\ r1 <> r2
    /\ mem r1 existing = false
    /\ mem r2 existing = false.
Proof.
  intros Hfuel.
  destruct (get_unique_repo_path_free existing p fuel Hfuel) as [r1 [E1 H1]].
  destruct (get_unique_repo_path_free (r1 :: existing) p (S fuel))
    as [r2 [E2 H2]]; [cbn [length]; lia |].
  exists r1, r2. cbn [mem existsb] in H2.
  apply orb_false_elim in H2 as [Hne H2].
  repeat split; try assumption.
  intros ->. rewrite str_eqb_refl in Hne. discriminate.
Qed.

Lemma get_unique_repo_path_twice_witness :
  let existing := [lit "/tmp/repo"; lit "/tmp/repo_1"; lit "/tmp/repo_3"] in
  let p := mkPath (lit "/tmp") (lit "repo") in
  (length existing < 4)%nat
  /\ exists r1 r2,
       get_unique_repo_path existing p 4 = Some r1
       /\ get_unique_repo_path (r1 :: existing) p 5 = Some r2
       /\ r1 <> r2
       /\ mem r1 existing = false
       /\ mem r2 existing = false.
Proof.
  cbv zeta. split; [cbn; lia |].
  apply (get_unique_repo_path_twice
           [lit "/tmp/repo"; lit "/tmp/repo_1"; lit "/tmp/repo_3"]
           (mkPath (lit "/tmp") (lit "repo")) 4).
  cbn. lia.
Defined.

(** ** [find_code_files_bfs]: directories that cannot be listed *)

Lemma open_node_dir (nm : str) (l : option (list node)) :
  open_node (Dir nm l) = Dir nm (open_listing l).
Proof. destruct l; reflexivity. Qed.

Lemma scan_entries_open (dir : str) (es : list node) :
  forall q fs,
    scan_entries dir (map open_node es) (map open_queued q) fs
    = (map open_queued (fst (scan_entries dir es q fs)),
       snd (scan_entries dir es q fs)).
Proof.
  induction es as [|e es IH]; intros q fs; [reflexivity |].
  cbn [map]. destruct e as [nm d | nm l].
  - cbn [open_node scan_entries].
    match goal with |- context [if ?b then _ else _] => destruct b end;
      apply IH.
  - rewrite open_node_dir. cbn [scan_entries].
    destruct (negb (mem nm EXCLUDE_DIRS)); [| apply IH].
    rewrite <- IH. f_equal. rewrite map_app. reflexivity.
Qed.

Lemma bfs_open (queue : list queued) (files : list fpath)
    (scanned : list str) :
  bfs (map open_queued queue) files scanned = bfs queue files scanned.
Proof.
  funelim (bfs queue files scanned).
  - reflexivity.
  - cbn [map].
    change (open_queued (current_dir, Some entries))
      with (current_dir, Some (map open_node entries)).
    simp bfs. rewrite scan_entries_open. cbn [fst snd].
    exact H.
  - cbn [map].
    change (open_queued (current_dir, None))
      with (current_dir, Some (@nil node)).
    simp bfs. cbn [scan_entries fst snd].
    exact H.
Qed.

(** A directory that cannot be listed is skipped like an empty one: the
    discovery returns the same list, and scans the same directories, as in
    the tree where every such directory is empty. *)
Theorem find_code_files_unreadable (root : str) (top : option (list node)) :
  find_code_files_bfs root (open_listing top) = find_code_files_bfs root top
  /\ scanned_dirs root (open_listing top) = scanned_dirs root top.
Proof.
  assert (E : traverse root (open_listing top) = traverse root top)
    by apply (bfs_open [(root, top)] [] []).
  unfold find_code_files_bfs, scanned_dirs. rewrite E. split; reflexivity.
Qed.
